(** * The preview resolver of [apps/docs/components/preview/index.tsx]

    A shallow embedding of the functions that assemble the sandbox of a
    component preview: [parseDependencyVersion], [parseContent],
    [processDependencies], [parseShadcnComponents] and [Preview], together
    with the three regular expressions they are written with. *)

From Stdlib Require Import Ascii String.
From stdpp Require Import gmap list.

Set Warnings "-clear-no-such-hyp".

Local Open Scope nat_scope.
Local Open Scope list_scope.

(** ** Strings

    A JavaScript string is a sequence of UTF-16 code units. None of the
    regular expressions below carries the [u] flag, so they all work on code
    units. *)

Abbreviation char := N.
Abbreviation jsstring := (list char).

(** A literal of the source, given by its ASCII text. *)
Definition js (s : string) : jsstring :=
  N_of_ascii <$> list_ascii_of_string s.

(** [s.startsWith(p)], as a boolean. *)
Fixpoint starts_with (p s : jsstring) : bool :=
  match p, s with
  | [], _ => true
  | a :: p', b :: s' => if decide (a = b) then starts_with p' s' else false
  | _ :: _, [] => false
  end.

(** ** Regular expressions

    The regular expressions of the file use literals, one optional group,
    greedy and lazy [+] over a character class, capture groups, a negative
    lookahead and the two anchors. The matcher follows the
    backtracking semantics of ECMAScript: a pattern is run on a state with a
    continuation for what follows it, and the first alternative whose
    continuation succeeds wins. *)

Inductive regex : Type :=
| Str (s : jsstring)                (* the characters of [s], one after the other *)
| Cat (r1 r2 : regex)               (* [r1 r2] *)
| Capture (g : nat) (r : regex)     (* the [g]-th capture group [(r)] *)
| Optional (r : regex)              (* [(?:r)?], greedy *)
| Plus (p : char → bool)            (* [c+] over a class, greedy *)
| PlusLazy (p : char → bool)        (* [c+?] over a class, lazy *)
| NotAhead (r : regex)              (* [(?!r)] *)
| Start                             (* [^], no [m] flag *)
| End.                              (* [$], no [m] flag *)

(** The state of a match: what is left of the input, the index reached and
    the captures so far ([None] is [undefined]). *)
Record MatchState : Type := mkState {
  rest : jsstring;
  endIndex : nat;
  captures : list (option jsstring);
}.

Definition Continuation : Type := MatchState → option MatchState.

Fixpoint plus_greedy (p : char → bool) (s : jsstring) (i : nat)
    (caps : list (option jsstring)) (k : Continuation) : option MatchState :=
  match s with
  | [] => None
  | c :: t =>
      if p c then
        match plus_greedy p t (S i) caps k with
        | Some z => Some z
        | None => k (mkState t (S i) caps)
        end
      else None
  end.

Fixpoint plus_lazy (p : char → bool) (s : jsstring) (i : nat)
    (caps : list (option jsstring)) (k : Continuation) : option MatchState :=
  match s with
  | [] => None
  | c :: t =>
      if p c then
        match k (mkState t (S i) caps) with
        | Some z => Some z
        | None => plus_lazy p t (S i) caps k
        end
      else None
  end.

Fixpoint run (r : regex) (x : MatchState) (k : Continuation) : option MatchState :=
  match r with
  | Str s =>
      if starts_with s (rest x)
      then k (mkState (drop (length s) (rest x)) (endIndex x + length s) (captures x))
      else None
  | Cat r1 r2 => run r1 x (λ y, run r2 y k)
  | Capture g r =>
      run r x (λ y,
        let captured := take (endIndex y - endIndex x) (rest x) in
        k (mkState (rest y) (endIndex y) (<[pred g := Some captured]> (captures y))))
  | Optional r =>
      match run r x k with
      | Some z => Some z
      | None => k x
      end
  | Plus p => plus_greedy p (rest x) (endIndex x) (captures x) k
  | PlusLazy p => plus_lazy p (rest x) (endIndex x) (captures x) k
  | NotAhead r =>
      match run r x Some with
      | Some _ => None
      | None => k x
      end
  | Start => if decide (endIndex x = 0) then k x else None
  | End => match rest x with [] => k x | _ :: _ => None end
  end.

(** A regular expression of the source: the pattern, the number of its
    capture groups (the [g] flag shows in which of the functions below the
    call site uses). *)
Record RegExp : Type := mkRegExp {
  pattern : regex;
  groups : nat;
}.

(** One attempt at index [i], where [s] is the input from [i] on. *)
Definition match_at (re : RegExp) (s : jsstring) (i : nat) : option MatchState :=
  run (pattern re) (mkState s i (replicate (groups re) None)) Some.

(** The result array of a successful match: the matched text, then the
    captures. *)
Definition match_array (s : jsstring) (i : nat) (y : MatchState) : list (option jsstring) :=
  Some (take (endIndex y - i) s) :: captures y.

(** [str.match(re)] for a regular expression without the [g] flag: the first
    index at which the pattern matches, or [null]. *)
Fixpoint exec_from (re : RegExp) (s : jsstring) (i : nat) : option (list (option jsstring)) :=
  match match_at re s i with
  | Some y => Some (match_array s i y)
  | None =>
      match s with
      | [] => None
      | _ :: t => exec_from re t (S i)
      end
  end.

Definition String_match (re : RegExp) (str : jsstring) : option (list (option jsstring)) :=
  exec_from re str 0.

(** The matches of a regular expression with the [g] flag, left to right
    and without overlap. [skip] counts the characters of the match in
    progress that are still to pass; an empty match moves on by one
    character. *)
Fixpoint global_matches (re : RegExp) (s : jsstring) (i skip : nat) : list jsstring :=
  match skip with
  | S skip' =>
      match s with
      | [] => []
      | _ :: t => global_matches re t (S i) skip'
      end
  | 0 =>
      match match_at re s i with
      | Some y =>
          let len := endIndex y - i in
          take len s ::
          match s with
          | [] => []
          | _ :: t => global_matches re t (S i) (pred len)
          end
      | None =>
          match s with
          | [] => []
          | _ :: t => global_matches re t (S i) 0
          end
      end
  end.

(** [str.match(re)] for a regular expression with the [g] flag: every
    matched text, or [null] when there is none. *)
Definition String_match_global (re : RegExp) (str : jsstring) : option (list jsstring) :=
  match global_matches re str 0 0 with
  | [] => None
  | m :: ms => Some (m :: ms)
  end.

(** [str.replace(re, replacement)] for a regular expression with the [g]
    flag and a replacement text without [$]: every match gives way to the
    replacement, everything else is kept. *)
Fixpoint replace_matches (re : RegExp) (replacement : jsstring) (s : jsstring)
    (i skip : nat) : jsstring :=
  match skip with
  | S skip' =>
      match s with
      | [] => []
      | _ :: t => replace_matches re replacement t (S i) skip'
      end
  | 0 =>
      match match_at re s i with
      | Some y =>
          let len := endIndex y - i in
          replacement ++
          match s with
          | [] => []
          | c :: t =>
              match len with
              | 0 => c :: replace_matches re replacement t (S i) 0
              | S len' => replace_matches re replacement t (S i) len'
              end
          end
      | None =>
          match s with
          | [] => []
          | c :: t => c :: replace_matches re replacement t (S i) 0
          end
      end
  end.

Definition String_replace_global (re : RegExp) (replacement str : jsstring) : jsstring :=
  replace_matches re replacement str 0 0.

(** [str.replace(pattern, replacement)] for a pattern that is a string:
    the first occurrence only. *)
Fixpoint String_replace (pat replacement s : jsstring) : jsstring :=
  if starts_with pat s then replacement ++ drop (length pat) s
  else match s with
       | [] => []
       | c :: t => c :: String_replace pat replacement t
       end.

(** *** Character classes *)

(** Line terminators: LF, CR, LS, PS. *)
Definition line_terminator (c : char) : bool :=
  bool_decide (c ∈ [10; 13; 8232; 8233]%N).

(** [.] without the [s] flag. *)
Definition dot (c : char) : bool := negb (line_terminator c).

(** [\s]: white space and line terminators. *)
Definition white_space (c : char) : bool :=
  bool_decide (c ∈ [9; 11; 12; 32; 160; 5760; 8239; 8287; 12288; 65279]%N)
  || bool_decide (8192 ≤ c ≤ 8202)%N
  || line_terminator c.

Definition apostrophe : char := 39%N.
Definition double_quote : char := 34%N.

(** The class of [kiboRegex]: any character but an apostrophe, a double
    quote and [\s]. *)
Definition not_quote_or_space (c : char) : bool :=
  negb (bool_decide (c = apostrophe) || bool_decide (c = double_quote) || white_space c).

(** ** The source, from here on *)

(** [const dependencyRegex = /^(.+?)(?:@(.+))?$/;] *)
Definition dependencyRegex : RegExp :=
  mkRegExp
    (Cat Start
      (Cat (Capture 1 (PlusLazy dot))
        (Cat (Optional (Cat (Str (js "@")) (Capture 2 (Plus dot))))
          End)))
    2.

(** [const registryRegex = /@\/registry\/new-york\/ui\//g;] *)
Definition registryRegex : RegExp :=
  mkRegExp (Str (js "@/registry/new-york/ui/")) 0.

(** [const kiboRegex = /@\/components\/ui\/(?!kibo-ui\/)(C+)/g;] where [C]
    is the class [not_quote_or_space]. *)
Definition kiboRegex : RegExp :=
  mkRegExp
    (Cat (Str (js "@/components/ui/"))
      (Cat (NotAhead (Str (js "kibo-ui/")))
        (Capture 1 (Plus not_quote_or_space))))
    1.

(** The object [{ name, version }] that [parseDependencyVersion] returns;
    [name] is [undefined] ([None]) when the expression does not match. *)
Module Dependency.
Record t : Type := mk {
  name : option jsstring;
  version : jsstring;
}.
End Dependency.

(** [arr[i]] of an array of possibly undefined texts; [undefined] out of
    range. *)
Definition element (arr : list (option jsstring)) (i : nat) : option jsstring :=
  mjoin (arr !! i).

Definition parseDependencyVersion (dependency : jsstring) : Dependency.t :=
  let slice := default [] (drop 1 <$> String_match dependencyRegex dependency) in
  let name := element slice 0 in
  let version := element slice 1 in
  {| Dependency.name := name; Dependency.version := default (js "latest") version |}.

Definition parseContent (content : jsstring) : jsstring :=
  String_replace_global registryRegex (js "@/components/ui/") content.

(** *** Objects used as maps

    A [Record<string, string>] that the code only reads through
    [Object.values] is the list of its entries in enumeration order. One
    that the code fills by assignment is a finite map from property names
    to texts. *)

Definition Entries : Type := list (jsstring * jsstring).

Definition Object_values (o : Entries) : list jsstring := o.*2.

Abbreviation Dict := (gmap jsstring jsstring).

(** [o[key] = value] on an object that a literal has created. The property
    is stored under every name but [__proto__]: that one is an accessor of
    the prototype, whose setter does nothing with a string. *)
Definition assign (key value : jsstring) (o : Dict) : Dict :=
  if decide (key = js "__proto__") then o else <[key := value]> o.

(** The property name that [target[name]] uses: [undefined] reads as the
    text of that word. *)
Definition property_key (name : option jsstring) : jsstring :=
  default (js "undefined") name.

Definition processDependencies (deps : option Entries) (target : Dict) : Dict :=
  match deps with
  | None => target
  | Some deps =>
      foldl (λ target dep,
               let d := parseDependencyVersion dep in
               assign (property_key (Dependency.name d)) (Dependency.version d) target)
            target (Object_values deps)
  end.

(** [{ ...source }] written into an object literal that holds [target] so
    far: the properties of [source] win. *)
Definition spread (source target : Dict) : Dict := source ∪ target.

(** [[...new Set(xs)]]: the distinct elements, in the order of their first
    occurrence. *)
Definition Set_spread (xs : list jsstring) : list jsstring :=
  foldl (λ seen x, if decide (x ∈ seen) then seen else seen ++ [x]) [] xs.

(** *** The registry files *)

Module File.
Record t : Type := mk { content : jsstring }.
End File.

(** The shape the code gives to [./shadcn/${component}.json]. *)
Module Component.
Record t : Type := mk {
  name : jsstring;
  dependencies : option Entries;
  devDependencies : option Entries;
  files : option (list File.t);
}.
End Component.

(** The shape the code gives to [../../public/registry/${name}.json]. *)
Module Registry.
Record t : Type := mk {
  dependencies : option Entries;
  devDependencies : option Entries;
  registryDependencies : option Entries;
  files : option (list File.t);
}.
End Registry.

(** [files?.[0]?.content ?? ''] *)
Definition first_content (files : option (list File.t)) : jsstring :=
  default [] (File.content <$> (files ≫= head)).

(** *** Promises and effects

    An awaited call is fulfilled with a value, is rejected, or never
    settles. The functions below take a bound [fuel] on the depth of their
    recursion and are [Pending] when it does not suffice: a call that is
    [Pending] for every bound never returns. *)

Inductive Promise (A : Type) : Type :=
| Fulfilled (a : A)
| Rejected
| Pending.
Arguments Fulfilled {A} a.
Arguments Rejected {A}.
Arguments Pending {A}.

(** What a call does besides computing: the dynamic imports it requests and
    the warnings it prints, each named by its component. The events of one
    call are kept together; no order is meant among those of calls that run
    concurrently. *)
Inductive Event : Type :=
| Import (component : jsstring)            (* [./shadcn/${component}.json] *)
| ImportRegistry (name : jsstring)         (* [../../public/registry/${name}.json] *)
| Warn (component : jsstring).

(** [{ files, dependencies, devDependencies }] *)
Module Result.
Record t : Type := mk {
  files : Dict;
  dependencies : Dict;
  devDependencies : Dict;
}.
End Result.

(** The objects a call fills, with the events so far. *)
Definition Store : Type := Result.t * list Event.

Definition log (events : list Event) (st : Store) : Store :=
  (st.1, st.2 ++ events).

(** [Promise.all(xs.map(callback))], where the callbacks share the objects
    of [st]. Each callback requests its import at once; their continuations
    run one after the other, in the order [xs] is given in here. The whole
    is rejected as soon as one callback is, whatever the others do, and it
    never settles when one of them never does and none is rejected (nothing
    is returned then, so what the others wrote does not show). *)
Fixpoint Promise_all {K : Type} (callback : Store → K → Promise Store)
    (st : Store) (xs : list K) : Promise Store :=
  match xs with
  | [] => Fulfilled st
  | x :: xs' =>
      match callback st x with
      | Fulfilled st' => Promise_all callback st' xs'
      | Rejected => Rejected
      | Pending =>
          match Promise_all callback st xs' with
          | Rejected => Rejected
          | _ => Pending
          end
      end
  end.

(** The lines that the two loops over components share:
[[
  const componentContent = mod.files?.[0]?.content ?? '';
  files[`/components/ui/${mod.name}.tsx`] = parseContent(componentContent);
  processDependencies(mod.dependencies, dependencies);
  processDependencies(mod.devDependencies, devDependencies);
]] *)
Definition component_path (name : jsstring) : jsstring :=
  js "/components/ui/" ++ name ++ js ".tsx".

Definition store_component (mod_ : Component.t) (r : Result.t) : Result.t :=
  let componentContent := first_content (Component.files mod_) in
  {| Result.files :=
       assign (component_path (Component.name mod_)) (parseContent componentContent)
         (Result.files r);
     Result.dependencies :=
       processDependencies (Component.dependencies mod_) (Result.dependencies r);
     Result.devDependencies :=
       processDependencies (Component.devDependencies mod_) (Result.devDependencies r) |}.

Definition empty_result : Result.t :=
  {| Result.files := ∅; Result.dependencies := ∅; Result.devDependencies := ∅ |}.

(** The components a text refers to (lines 58, 59 and 65 to 68): the
    matches of [kiboRegex] in the rewritten text, without their prefix and
    without repetition; none when [matches] is [null]. *)
Definition components (str : jsstring) : list jsstring :=
  let parsedString := parseContent str in
  let matches := String_match_global kiboRegex parsedString in
  match matches with
  | None => []
  | Some matches => Set_spread ((λ m, String_replace (js "@/components/ui/") [] m) <$> matches)
  end.

(** [PreviewProps] *)
Module Props.
Record t : Type := mk {
  name : jsstring;
  code : jsstring;
  dependencies : option Entries;
}.
End Props.

(** The parts of the [PreviewProvider] element that are computed:
    [customSetup] and [files]. *)
Module CustomSetup.
Record t : Type := mk {
  dependencies : Dict;
  devDependencies : Dict;
}.
End CustomSetup.

Module PreviewProvider.
Record t : Type := mk {
  customSetup : CustomSetup.t;
  files : Dict;
}.
End PreviewProvider.

(** An object literal [{ k1: v1, k2: v2, ... }]. *)
Definition object_literal (properties : list (jsstring * jsstring)) : Dict :=
  foldl (λ o kv, <[kv.1 := kv.2]> o) ∅ properties.

Section Resolver.

(** [import(`./shadcn/${component}.json`)]: the module, or [None] when the
    import is rejected. *)
Variable shadcn : jsstring → option Component.t.

(** The order in which the imports requested together settle, and so the
    order in which the continuations of their callbacks run. *)
Variable settle : list jsstring → list jsstring.

(** The callback of line 71, once its import has settled. [parse] is the
    recursive call; its result is awaited and dropped. *)
Definition load (parse : jsstring → Promise Store) (st : Store)
    (component : jsstring) : Promise Store :=
  match shadcn component with
  | None => Fulfilled (log [Warn component] st)
  | Some mod_ =>
      let componentContent := first_content (Component.files mod_) in
      let st := (store_component mod_ st.1, st.2) in
      match parse componentContent with
      | Fulfilled (_, events) => Fulfilled (log events st)
      | Rejected => Fulfilled (log [Warn component] st)
      | Pending => Pending
      end
  end.

Fixpoint parseShadcnComponents (fuel : nat) (str : jsstring) : Promise Store :=
  match fuel with
  | 0 => Pending
  | S fuel =>
      let components := components str in
      Promise_all (load (parseShadcnComponents fuel))
        (empty_result, Import <$> components) (settle components)
  end.

(** [Promise.all([p, q])] *)
Definition Promise_both {A B : Type} (p : Promise A) (q : Promise B) : Promise (A * B) :=
  match p, q with
  | Rejected, _ | _, Rejected => Rejected
  | Pending, _ | _, Pending => Pending
  | Fulfilled a, Fulfilled b => Fulfilled (a, b)
  end.

(** [import(`../../public/registry/${name}.json`)] *)
Variable registry : jsstring → option Registry.t.

(** The texts imported from [./tsconfig], [./utils] and [./content]. *)
Variables tsconfig utils content : jsstring.

(** The callback of line 130, once its import has settled. Nothing catches
    the rejection of the import here. *)
Definition load_dependency (fuel : nat) (st : Store) (dependency : jsstring) : Promise Store :=
  match shadcn dependency with
  | None => Rejected
  | Some mod_ =>
      let componentContent := first_content (Component.files mod_) in
      let st := (store_component mod_ st.1, st.2) in
      match parseShadcnComponents fuel componentContent with
      | Fulfilled (_, events) => Fulfilled (log events st)
      | Rejected => Rejected
      | Pending => Pending
      end
  end.

(** [registry.registryDependencies && Promise.all(Object.values(...).map(...))] *)
Definition load_dependencies (fuel : nat) (st : Store)
    (registryDependencies : option Entries) : Promise Store :=
  match registryDependencies with
  | None => Fulfilled st
  | Some deps =>
      let values := Object_values deps in
      Promise_all (load_dependency fuel) (log (Import <$> values) st) (settle values)
  end.

(** [Preview], lines 104 to 157: the files and the two dependency objects
    as they are when the element is built. *)
Definition Preview_store (fuel : nat) (props : Props.t) : Promise Store :=
  let name := Props.name props in
  let code := Props.code props in
  let demoDependencies := Props.dependencies props in
  match Promise_both
          (match registry name with Some r => Fulfilled r | None => Rejected end)
          (parseShadcnComponents fuel code) with
  | Rejected => Rejected
  | Pending => Pending
  | Fulfilled (registry, initialParsedComponents) =>
      let '(Result.mk files dependencies devDependencies, events) := initialParsedComponents in
      let files := assign (js "/App.tsx") code files in
      let files := assign (js "/tsconfig.json") tsconfig files in
      let files := assign (js "/lib/utils.ts") utils files in
      let files := assign (js "/lib/content.ts") content files in
      let selectedComponentContent := parseContent (first_content (Registry.files registry)) in
      let st : Store := (Result.mk files dependencies devDependencies, ImportRegistry name :: events) in
      match Promise_both
              (parseShadcnComponents fuel selectedComponentContent)
              (load_dependencies fuel st (Registry.registryDependencies registry)) with
      | Rejected => Rejected
      | Pending => Pending
      | Fulfilled ((_, selected_events), (Result.mk files dependencies devDependencies, events)) =>
          let files :=
            assign (js "/components/ui/kibo-ui/" ++ name ++ js ".tsx")
              (parseContent selectedComponentContent) files in
          let dependencies := processDependencies (Registry.dependencies registry) dependencies in
          let devDependencies := processDependencies (Registry.devDependencies registry) devDependencies in
          let dependencies := processDependencies demoDependencies dependencies in
          Fulfilled (Result.mk files dependencies devDependencies, events ++ selected_events)
      end
  end.

(** [Preview], lines 159 to 191: the properties of the [PreviewProvider]
    element that depend on the store. *)
Definition Preview_element (r : Result.t) : PreviewProvider.t :=
  let latest := js "latest" in
  {| PreviewProvider.customSetup :=
       {| CustomSetup.dependencies :=
            <[js "date-fns" := latest]>
              (spread (Result.dependencies r)
                (object_literal
                   [(js "@radix-ui/react-icons", latest);
                    (js "clsx", latest);
                    (js "tailwind-merge", latest);
                    (js "class-variance-authority", latest);
                    (js "tailwindcss", latest);
                    (js "tailwindcss-animate", latest)]));
          CustomSetup.devDependencies :=
            spread (Result.devDependencies r)
              (object_literal [(js "autoprefixer", latest); (js "postcss", latest)]) |};
     PreviewProvider.files := Result.files r |}.

Definition Preview (fuel : nat) (props : Props.t) : Promise (PreviewProvider.t * list Event) :=
  match Preview_store fuel props with
  | Fulfilled (r, events) => Fulfilled (Preview_element r, events)
  | Rejected => Rejected
  | Pending => Pending
  end.

End Resolver.

(** ** Notions the statements use *)

#[global] Instance Event_eq_dec : EqDecision Event.
Proof. solve_decision. Defined.

(** The import of [component] is requested this many times. *)
Definition fetches (component : jsstring) (events : list Event) : nat :=
  length (filter (λ e, e = Import component) events).

Section Graph.

Variable shadcn : jsstring → option Component.t.

(** [finite_depth str]: every chain of references that starts in the text
    [str] and goes on through the components the registry has comes to an
    end. *)
Inductive finite_depth : jsstring → Prop :=
| finite_depth_intro (str : jsstring) :
    (∀ c mod_, c ∈ components str → shadcn c = Some mod_ →
       finite_depth (first_content (Component.files mod_))) →
    finite_depth str.

(** The number of chains of references of length at most [depth] that lead
    from the text [str] to [component]; several references to a component
    inside one text count once. *)
Fixpoint reference_paths (depth : nat) (str component : jsstring) : nat :=
  match depth with
  | 0 => 0
  | S depth =>
      (if decide (component ∈ components str) then 1 else 0) +
      sum_list_with
        (λ c, match shadcn c with
              | Some mod_ =>
                  reference_paths depth (first_content (Component.files mod_)) component
              | None => 0
              end)
        (components str)
  end.

(** What a component that the text refers to adds to the result, whatever
    its own text refers to. *)
Definition store_direct (r : Result.t) (component : jsstring) : Result.t :=
  match shadcn component with
  | Some mod_ => store_component mod_ r
  | None => r
  end.

End Graph.

(** The entry that a dependency reference writes into an accumulator. *)
Definition dependency_key (dep : jsstring) : jsstring :=
  property_key (Dependency.name (parseDependencyVersion dep)).

Definition dependency_version (dep : jsstring) : jsstring :=
  Dependency.version (parseDependencyVersion dep).

(** The dependency references that a sequence of merges reads, in the
    order in which it reads them. *)
Definition references (sources : list (option Entries)) : list jsstring :=
  sources ≫= λ deps, Object_values (default [] deps).

(** The maps that [Preview] merges into its runtime accumulator before the
    one of its caller, in the order of the merges: those of the components
    that the code refers to (line 85, from the call of line 111) and those
    of the registry dependencies (line 142), each in the order in which the
    imports settle, then the one of the registry file (line 155). *)
Definition discovered_sources (shadcn : jsstring → option Component.t)
    (settle : list jsstring → list jsstring) (reg : Registry.t) (code : jsstring) :
    list (option Entries) :=
  let given component := shadcn component ≫= Component.dependencies in
  (given <$> settle (components code)) ++
  (given <$> match Registry.registryDependencies reg with
             | Some deps => settle (Object_values deps)
             | None => []
             end) ++
  [Registry.dependencies reg].

(** The names that the element lists before it spreads the accumulators. *)
Definition seeded_dependencies : list jsstring :=
  [js "@radix-ui/react-icons"; js "clsx"; js "tailwind-merge";
   js "class-variance-authority"; js "tailwindcss"; js "tailwindcss-animate"].

Definition seeded_devDependencies : list jsstring :=
  [js "autoprefixer"; js "postcss"].

(** The paths of the files that [Preview] writes whatever the registry
    holds, lines 117 to 120. *)
Definition scaffold_paths : list jsstring :=
  [js "/App.tsx"; js "/tsconfig.json"; js "/lib/utils.ts"; js "/lib/content.ts"].

(** Following the words of the specification: the separator of a
    dependency reference is its last [@], one that opens the text apart;
    without a separator the version is [latest]. *)
Fixpoint split_at_last_at (name_so_far d : jsstring) : Dependency.t :=
  match d with
  | [] => Dependency.mk (Some name_so_far) (js "latest")
  | c :: d' =>
      if decide (c = 64%N ∧ name_so_far ≠ [] ∧ 64%N ∉ d')
      then Dependency.mk (Some name_so_far) d'
      else split_at_last_at (name_so_far ++ [c]) d'
  end.

(** ** Registries and previews the statements are tried on *)

Module Sample.

(** Imports that settle in the order they were requested in. *)
Definition in_order (xs : list jsstring) : list jsstring := xs.

(** A registry given by its files. *)
Definition json {A : Type} (table : list (jsstring * A)) (key : jsstring) : option A :=
  (list_to_map table : gmap jsstring A) !! key.

(** An array of texts, as the entries [Object.values] reads it as. *)
Definition array (xs : list jsstring) : Entries :=
  imap (λ i x, (js (String (ascii_of_nat (48 + i)) EmptyString), x)) xs.

Definition component (name : string) (dependencies : list jsstring) (content : string) :
    jsstring * Component.t :=
  (js name,
   Component.mk (js name) (Some (array dependencies)) None (Some [File.mk (js content)])).

Definition tsconfig : jsstring := js "{ }".
Definition utils : jsstring := js "export const cn = 0".
Definition content : jsstring := js "export const content = 0".

(** The entry refers to [button], [button] to [icon], [icon] to nothing. *)
Definition chain : jsstring → option Component.t :=
  json [component "button" [js "@radix-ui/react-slot"]
          "import { Icon } from '@/components/ui/icon'";
        component "icon" [js "lucide-react"] "export const Icon = null"].

Definition chain_entry : jsstring :=
  js "import { Button } from '@/components/ui/button'".

(** [a] refers to [b], [b] to [c] and [c] to [a]. *)
Definition cycle : jsstring → option Component.t :=
  json [component "a" [] "import '@/components/ui/b'";
        component "b" [] "import '@/components/ui/c'";
        component "c" [] "import '@/components/ui/a'"].

Definition cycle_entry : jsstring := js "import '@/components/ui/a'".

(** [b] and [c] both refer to [d]. *)
Definition diamond : jsstring → option Component.t :=
  json [component "b" [] "import '@/components/ui/d'";
        component "c" [] "import '@/components/ui/d'";
        component "d" [] "export default 0"].

Definition diamond_entry : jsstring :=
  js "import '@/components/ui/b'; import '@/components/ui/c'".

(** [a] refers to [b] twice and [b] refers to [a]. *)
Definition twice : jsstring → option Component.t :=
  json [component "a" [] "import '@/components/ui/b'; import '@/components/ui/b'";
        component "b" [] "import '@/components/ui/a'"].

(** [a] refers to [b] twice and [b] to nothing. *)
Definition twice_flat : jsstring → option Component.t :=
  json [component "a" [] "import '@/components/ui/b'; import '@/components/ui/b'";
        component "b" [] "export default 0"].

Definition twice_entry : jsstring := js "import '@/components/ui/a'".


(** The registry file of the component on show. *)
Definition shown (registryDependencies : list jsstring) (content : string) :
    jsstring → option Registry.t :=
  json [(js "gantt",
         Registry.mk (Some (array [js "date-fns@3.0.0"])) None
           (Some (array registryDependencies)) (Some [File.mk (js content)]))].

Definition props (code : string) (dependencies : option Entries) : Props.t :=
  Props.mk (js "gantt") (js code) dependencies.

End Sample.

(** * Properties *)

(** ** Texts *)

Lemma starts_with_app (p t : jsstring) : starts_with p (p ++ t) = true.
Proof.
  induction p as [|a p IH]; [done|].
  simpl. by rewrite decide_True.
Qed.

Lemma starts_with_drop (p s : jsstring) :
  starts_with p s = true → s = p ++ drop (length p) s.
Proof.
  revert s. induction p as [|a p IH]; intros [|b s] H; simpl in *; try done.
  destruct (decide (a = b)) as [->|]; [|done].
  f_equal. by apply IH.
Qed.

Lemma starts_with_cons_ne (a b : char) (p s : jsstring) :
  a ≠ b → starts_with (a :: p) (b :: s) = false.
Proof. intros. simpl. by rewrite decide_False. Qed.

Lemma starts_with_occurs (p s : jsstring) :
  (∀ a b, s ≠ a ++ p ++ b) → starts_with p s = false.
Proof.
  intros H. destruct (starts_with p s) eqn:E; [|done].
  apply starts_with_drop in E. by destruct (H [] (drop (length p) s)).
Qed.

(** ** Rewriting with a literal pattern

    [str.replace(/p/g, r)] for a pattern [a :: p] and a replacement
    [a :: q] that share their first character and nothing else of it, and
    where the replacement does not begin like the pattern. *)

Section LiteralRewrite.

Variables (a : char) (p q : jsstring).
Hypothesis a_not_in_p : a ∉ p.
Hypothesis a_not_in_q : a ∉ q.
Hypothesis q_unlike_p : ∀ w, starts_with p (q ++ w) = false.

Let re : RegExp := mkRegExp (Str (a :: p)) 0.
Let R (i : nat) (s : jsstring) : jsstring := replace_matches re (a :: q) s i 0.

Lemma literal_match_at (s : jsstring) (i : nat) :
  match_at re s i =
    if starts_with (a :: p) s
    then Some (mkState (drop (S (length p)) s) (i + S (length p)) [])
    else None.
Proof. reflexivity. Qed.

Lemma replace_matches_skip (u r : jsstring) (i : nat) :
  replace_matches re (a :: q) (u ++ r) i (length u) = R (i + length u) r.
Proof.
  revert i. induction u as [|c u IH]; intros i; simpl.
  - unfold R. by rewrite Nat.add_0_r.
  - rewrite IH. f_equal. lia.
Qed.

Lemma rewrite_nil (i : nat) : R i [] = [].
Proof. reflexivity. Qed.

Lemma rewrite_match (i : nat) (s : jsstring) :
  starts_with (a :: p) s = true →
  R i s = (a :: q) ++ R (i + S (length p)) (drop (S (length p)) s).
Proof.
  intros H. pose proof (starts_with_drop _ _ H) as Hs.
  set (t := drop (S (length p)) s) in *. simpl in Hs. rewrite Hs.
  unfold R at 1. cbn [replace_matches]. rewrite literal_match_at.
  rewrite <- Hs at 1. rewrite H. cbn [endIndex].
  rewrite (Nat.add_comm i), Nat.add_sub.
  rewrite replace_matches_skip. unfold t, R. do 2 f_equal. lia.
Qed.

Lemma rewrite_no_match (i : nat) (c : char) (t : jsstring) :
  starts_with (a :: p) (c :: t) = false → R i (c :: t) = c :: R (S i) t.
Proof.
  intros H. unfold R at 1. cbn [replace_matches].
  by rewrite literal_match_at, H.
Qed.

(** What the rewritten text begins with, when it has no [a], the text began
    with; so no occurrence of the pattern appears that was not there. *)
Lemma rewrite_starts_with (u s : jsstring) (i : nat) :
  a ∉ u → starts_with u (R i s) = true → starts_with u s = true.
Proof.
  revert s i. induction u as [|x u IH]; intros s i Hu H; [done|].
  apply not_elem_of_cons in Hu as [Hx Hu].
  destruct s as [|c t]; [done|].
  destruct (starts_with (a :: p) (c :: t)) eqn:E.
  - rewrite (rewrite_match _ _ E) in H. simpl in H.
    by rewrite decide_False in H.
  - rewrite (rewrite_no_match _ _ _ E) in H. simpl in *.
    destruct (decide (x = c)); [|done]. by eapply IH.
Qed.

Lemma rewrite_keeps_no_match (c : char) (t : jsstring) (i : nat) :
  starts_with (a :: p) (c :: t) = false →
  starts_with (a :: p) (c :: R i t) = false.
Proof.
  intros H. destruct (starts_with (a :: p) (c :: R i t)) eqn:E; [|done].
  simpl in *. destruct (decide (a = c)); [|done].
  apply rewrite_starts_with in E; [congruence | done].
Qed.

(** The replacement is left as it is. *)
Lemma rewrite_plain (u w : jsstring) (i : nat) :
  a ∉ u → R i (u ++ w) = u ++ R (i + length u) w.
Proof.
  revert i. induction u as [|c u IH]; intros i Hu; simpl.
  - by rewrite Nat.add_0_r.
  - apply not_elem_of_cons in Hu as [Hc Hu].
    rewrite rewrite_no_match by by apply starts_with_cons_ne.
    rewrite IH by done. by rewrite Nat.add_succ_comm.
Qed.

Lemma rewrite_replacement (w : jsstring) (i : nat) :
  R i ((a :: q) ++ w) = (a :: q) ++ R (i + S (length q)) w.
Proof.
  simpl. rewrite rewrite_no_match.
  - rewrite rewrite_plain by done. by rewrite Nat.add_succ_comm.
  - simpl. rewrite decide_True by done. apply q_unlike_p.
Qed.

Lemma rewrite_idempotent_bounded (n : nat) (s : jsstring) (i j : nat) :
  length s ≤ n → R j (R i s) = R i s.
Proof.
  revert s i j. induction n as [|n IH]; intros s i j Hn.
  - destruct s; [done | simpl in Hn; lia].
  - destruct s as [|c t]; [done|].
    destruct (starts_with (a :: p) (c :: t)) eqn:E.
    + rewrite (rewrite_match _ _ E), rewrite_replacement.
      rewrite IH; [done|]. rewrite length_drop. simpl in *. lia.
    + rewrite (rewrite_no_match _ _ _ E).
      rewrite rewrite_no_match by by apply rewrite_keeps_no_match.
      rewrite IH; [done | simpl in Hn; lia].
Qed.

Lemma rewrite_idempotent (s : jsstring) (i j : nat) :
  replace_matches re (a :: q) (replace_matches re (a :: q) s i 0) j 0 =
  replace_matches re (a :: q) s i 0.
Proof. by apply (rewrite_idempotent_bounded (length s)). Qed.

End LiteralRewrite.

(** ** [parseContent] *)

(** C8. Rewriting a text a second time changes nothing:
    [parseContent (parseContent x) = parseContent x] for every text [x]. *)
Theorem parseContent_idempotent (x : jsstring) :
  parseContent (parseContent x) = parseContent x.
Proof.
  unfold parseContent, String_replace_global.
  apply (rewrite_idempotent 64%N (js "/registry/new-york/ui/") (js "/components/ui/")).
  - apply (bool_decide_unpack _). by vm_compute.
  - apply (bool_decide_unpack _). by vm_compute.
  - intros w. reflexivity.
Qed.

(** ** The quantifiers of the matcher *)

(** A greedy [+] in front of the end of the input takes all of it. *)
Lemma plus_greedy_to_end (p : char → bool) (v : jsstring) (i : nat)
    (caps : list (option jsstring)) (k : Continuation) :
  (∀ y, rest y ≠ [] → k y = None) →
  v ≠ [] → Forall (λ c, p c = true) v →
  plus_greedy p v i caps k = k (mkState [] (i + length v) caps).
Proof.
  intros Hk. revert i. induction v as [|c t IH]; intros i Hv Hp; [done|].
  apply Forall_cons in Hp as [Hc Ht]. simpl. rewrite Hc.
  destruct t as [|c' t'].
  - simpl. by rewrite Nat.add_1_r.
  - rewrite IH by done. rewrite Nat.add_succ_comm.
    destruct (k (mkState [] _ caps)); [done|]. by apply Hk.
Qed.

Lemma plus_greedy_not_to_end (p : char → bool) (v : jsstring) (i : nat)
    (caps : list (option jsstring)) (k : Continuation) :
  (∀ y, rest y ≠ [] → k y = None) →
  ¬ Forall (λ c, p c = true) v →
  plus_greedy p v i caps k = None.
Proof.
  intros Hk. revert i. induction v as [|c t IH]; intros i Hp; [done|].
  simpl. destruct (p c) eqn:Hc; [|done].
  rewrite IH.
  - apply Hk. simpl. intros ->. apply Hp. by repeat constructor.
  - intros Ht. apply Hp. by constructor.
Qed.

(** A lazy [+] stops at the first place where what follows it matches. *)
Lemma plus_lazy_first (p : char → bool) (u w : jsstring) (i : nat)
    (caps : list (option jsstring)) (k : Continuation) (z : MatchState) :
  u ≠ [] → Forall (λ c, p c = true) u →
  (∀ u1 u2, u = u1 ++ u2 → u1 ≠ [] → u2 ≠ [] →
     k (mkState (u2 ++ w) (i + length u1) caps) = None) →
  k (mkState w (i + length u) caps) = Some z →
  plus_lazy p (u ++ w) i caps k = Some z.
Proof.
  revert i. induction u as [|c u IH]; intros i Hu Hp Hnone Hz; [done|].
  apply Forall_cons in Hp as [Hc Hp]. simpl. rewrite Hc.
  destruct u as [|c' u'].
  - simpl in *. rewrite Nat.add_1_r in Hz. by rewrite Hz.
  - pose proof (Hnone [c] (c' :: u') eq_refl) as H1.
    cbn [length] in H1. rewrite Nat.add_1_r in H1. rewrite H1 by done.
    apply IH; [done | done | |].
    + intros u1 u2 E Hu1 Hu2. rewrite Nat.add_succ_comm.
      apply (Hnone (c :: u1) u2); [by rewrite E | done | done].
    + by rewrite Nat.add_succ_comm.
Qed.

(** ** [parseDependencyVersion] *)

(** What follows the name in [dependencyRegex]: the end of the text, or an
    [@] and a version that runs to the end. *)
Lemma dependency_version_spec (t : jsstring) (i : nat) (c1 : option jsstring) :
  run (Cat (Optional (Cat (Str (js "@")) (Capture 2 (Plus dot)))) End)
      (mkState t i [c1; None]) Some =
  match t with
  | [] => Some (mkState [] i [c1; None])
  | c :: v =>
      if decide (c = 64%N ∧ v ≠ [] ∧ Forall (λ c, dot c = true) v)
      then Some (mkState [] (i + 1 + length v) [c1; Some v])
      else None
  end.
Proof.
  destruct t as [|c v]; [done|].
  cbn [run rest endIndex captures js list_ascii_of_string fmap list_fmap starts_with].
  change (N_of_ascii "@") with 64%N.
  destruct (decide (c = 64%N)) as [->|Hc].
  - rewrite decide_True by done. cbn [drop length].
    destruct (decide (v = [])) as [->|Hv].
    { by rewrite decide_False by (by intros (?&?&?)). }
    destruct (decide (Forall (λ c, dot c = true) v)) as [Hdot|Hdot].
    + rewrite decide_True by done.
      rewrite plus_greedy_to_end; [| |done|done].
      * cbn. by rewrite Nat.add_sub', firstn_all.
      * intros [[|??] ??] ?; done.
    + rewrite decide_False by (by intros (?&?&?)).
      rewrite plus_greedy_not_to_end; [done| |done].
      intros [[|??] ??] ?; done.
  - rewrite (decide_False (P := 64%N = c)) by done.
    by rewrite decide_False by (by intros (?&?&?)).
Qed.

Lemma exec_from_here (re : RegExp) (s : jsstring) (i : nat) (y : MatchState) :
  match_at re s i = Some y → exec_from re s i = Some (match_array s i y).
Proof. intros H. destruct s; simpl; by rewrite H. Qed.

(** [dependencyRegex] at the start of a text: a lazy name, then what
    [dependency_version_spec] describes. *)
Lemma dependency_match_at (d : jsstring) :
  match_at dependencyRegex d 0 =
  plus_lazy dot d 0 [None; None]
    (λ y, run (Cat (Optional (Cat (Str (js "@")) (Capture 2 (Plus dot)))) End)
            (mkState (rest y) (endIndex y)
               (<[0 := Some (take (endIndex y - 0) d)]> (captures y)))
            Some).
Proof. reflexivity. Qed.

(** The name is the shortest beginning of the text after which the rest of
    the expression matches. *)
Lemma dependency_match (u w : jsstring) (version : option jsstring) :
  u ≠ [] → Forall (λ c, dot c = true) u →
  (∀ u1 c u2, u = u1 ++ c :: u2 → u1 ≠ [] →
     ¬ (c = 64%N ∧ u2 ++ w ≠ [] ∧ Forall (λ c, dot c = true) (u2 ++ w))) →
  match w with
  | [] => version = None
  | c :: v => c = 64%N ∧ v ≠ [] ∧ Forall (λ c, dot c = true) v ∧ version = Some v
  end →
  ∃ i, match_at dependencyRegex (u ++ w) 0 = Some (mkState [] i [Some u; version]).
Proof.
  intros Hu Hdot Hfirst Hw. rewrite dependency_match_at.
  exists (match w with [] => 0 + length u | _ :: v => 0 + length u + 1 + length v end).
  apply plus_lazy_first; [done | done | |].
  - intros u1 [|c u2] E Hu1 Hu2; [done|].
    cbn [rest endIndex captures insert list_insert].
    rewrite dependency_version_spec. cbn [app].
    rewrite decide_False; [done|]. by apply (Hfirst u1 c u2).
  - cbn [rest endIndex captures insert list_insert].
    rewrite dependency_version_spec, Nat.sub_0_r, Nat.add_0_l, take_app_length.
    destruct w as [|c v]; [by subst|].
    destruct Hw as (-> & ? & ? & ->). by rewrite decide_True.
Qed.

(** C6, as the code has it. A dependency reference that is not empty and
    has no line break is split at its first [@] that has something on both
    sides: what is before it is the name, what is after it the version. A
    reference without such an [@] is a name, at version [latest]. So
    [foo], [foo@1.2.3] and [@scope/foo@2.0.0] read as the claim says. *)
Theorem parseDependencyVersion_first_at (d : jsstring) :
  d ≠ [] → Forall (λ c, dot c = true) d →
  (∀ n v, d = n ++ 64%N :: v → n ≠ [] → v ≠ [] → 64%N ∉ tail n →
     parseDependencyVersion d = Dependency.mk (Some n) v) ∧
  ((∀ n v, d = n ++ 64%N :: v → n = [] ∨ v = []) →
     parseDependencyVersion d = Dependency.mk (Some d) (js "latest")).
Proof.
  intros Hd Hdot. split.
  - intros n v -> Hn Hv Hat.
    apply Forall_app in Hdot as [Hdn Hdv]. apply Forall_cons in Hdv as [_ Hdv].
    destruct (dependency_match n (64%N :: v) (Some v)) as [i Hi]; try done.
    { intros u1 c u2 -> Hu1 [-> _]. apply Hat.
      destruct u1; [done|]. simpl. set_solver. }
    unfold parseDependencyVersion, String_match.
    by rewrite (exec_from_here _ _ _ _ Hi).
  - intros Hnone.
    destruct (dependency_match d [] None) as [i Hi]; try done.
    { intros u1 c u2 -> Hu1 (-> & Hu2 & _). rewrite app_nil_r in Hu2.
      by destruct (Hnone u1 u2). }
    rewrite app_nil_r in Hi.
    unfold parseDependencyVersion, String_match.
    by rewrite (exec_from_here _ _ _ _ Hi).
Qed.

(** The three references of the claim, under the theorem: each has its
    single separator where the theorem puts it. *)
Lemma parseDependencyVersion_first_at_witness :
  parseDependencyVersion (js "foo") = Dependency.mk (Some (js "foo")) (js "latest") ∧
  parseDependencyVersion (js "foo@1.2.3") = Dependency.mk (Some (js "foo")) (js "1.2.3") ∧
  parseDependencyVersion (js "@scope/foo@2.0.0") =
    Dependency.mk (Some (js "@scope/foo")) (js "2.0.0").
Proof.
  split; [|split].
  - apply (proj2 (parseDependencyVersion_first_at (js "foo")
                    ltac:(done) ltac:(by repeat constructor))).
    intros [|a [|b [|c [|e n]]]] v E; simplify_eq; auto.
  - apply (proj1 (parseDependencyVersion_first_at (js "foo@1.2.3")
                    ltac:(done) ltac:(by repeat constructor))); [done..|].
    apply (bool_decide_unpack _). exact I.
  - apply (proj1 (parseDependencyVersion_first_at (js "@scope/foo@2.0.0")
                    ltac:(done) ltac:(by repeat constructor))); [done..|].
    apply (bool_decide_unpack _). exact I.
Defined.

(** C6, as the claim has it, fails: with two separators the code takes the
    first one, not the last. An alias such as [foo@npm:bar@1.0.0] gets the
    name [foo]; split at its last [@] it would be [foo@npm:bar]. *)
Lemma parseDependencyVersion_not_last_at :
  parseDependencyVersion (js "foo@npm:bar@1.0.0") =
    Dependency.mk (Some (js "foo")) (js "npm:bar@1.0.0") ∧
  split_at_last_at [] (js "foo@npm:bar@1.0.0") =
    Dependency.mk (Some (js "foo@npm:bar")) (js "1.0.0") ∧
  parseDependencyVersion (js "foo@npm:bar@1.0.0") ≠
    split_at_last_at [] (js "foo@npm:bar@1.0.0").
Proof. by vm_compute. Qed.

(** On the references of the claim the two readings agree. *)
Example split_at_last_at_agrees :
  Forall (λ d, parseDependencyVersion d = split_at_last_at [] d)
    [js "foo"; js "foo@1.2.3"; js "@scope/foo@2.0.0"; js "@scope/foo"].
Proof. by repeat constructor. Qed.

(** A text the expression does not match gives the name [undefined]: the
    empty text, and any text with a line break. *)
Example parseDependencyVersion_no_match :
  parseDependencyVersion [] = Dependency.mk None (js "latest") ∧
  parseDependencyVersion (js "foo" ++ [10%N] ++ js "@1") = Dependency.mk None (js "latest").
Proof. by vm_compute. Qed.

(** ** The scanner *)

Lemma Set_spread_from (seen xs : list jsstring) :
  NoDup seen →
  let r := foldl (λ seen x, if decide (x ∈ seen) then seen else seen ++ [x]) seen xs in
  NoDup r ∧ ∀ x, x ∈ r ↔ x ∈ seen ∨ x ∈ xs.
Proof.
  revert seen. induction xs as [|y xs IH]; intros seen Hseen; simpl.
  - split; [done|]. set_solver.
  - destruct (decide (y ∈ seen)) as [Hy|Hy].
    + destruct (IH seen Hseen) as [H1 H2]. split; [done|].
      intros x. rewrite H2. set_solver.
    + destruct (IH (seen ++ [y])) as [H1 H2].
      { apply NoDup_app. split_and!; [done | set_solver | apply NoDup_singleton]. }
      split; [done|]. intros x. rewrite H2. set_solver.
Qed.

Lemma NoDup_Set_spread (xs : list jsstring) : NoDup (Set_spread xs).
Proof. apply (Set_spread_from [] xs). constructor. Qed.
















Lemma NoDup_components (str : jsstring) : NoDup (components str).
Proof.
  unfold components, String_match_global.
  destruct (global_matches _ _ _ _); [constructor | apply NoDup_Set_spread].
Qed.



Example components_button :
  components (js "import { Button } from '@/registry/new-york/ui/button';" ++
              js "import { Gantt } from '@/components/ui/kibo-ui/gantt';" ++
              js "import { Card } from '@/components/ui/card'; import '@/components/ui/button'") =
  [js "button"; js "card"].
Proof. by vm_compute. Qed.

(** ** Objects *)

Lemma assign_insert (key value : jsstring) (o : Dict) :
  key ≠ js "__proto__" → assign key value o = <[key := value]> o.
Proof. intros. unfold assign. by rewrite decide_False. Qed.

Lemma assign_lookup_ne (key value k : jsstring) (o : Dict) :
  key ≠ k → assign key value o !! k = o !! k.
Proof.
  intros. unfold assign. case_decide; [done|]. by apply lookup_insert_ne.
Qed.

(** No assignment stores the name [__proto__]. *)
Lemma assign_proto (key value : jsstring) (o : Dict) :
  o !! js "__proto__" = None → assign key value o !! js "__proto__" = None.
Proof.
  intros. unfold assign. case_decide; [done|]. by rewrite lookup_insert_ne.
Qed.

Lemma component_path_storable (name : jsstring) :
  component_path name ≠ js "__proto__".
Proof. done. Qed.

(** ** Promises *)

Section PromiseAll.

Context {K : Type} (callback : Store → K → Promise Store).

Lemma Promise_all_not_rejected (st : Store) (xs : list K) :
  (∀ st x, callback st x ≠ Rejected) → Promise_all callback st xs ≠ Rejected.
Proof.
  intros H. revert st. induction xs as [|x xs IH]; intros st; simpl; [done|].
  destruct (callback st x) as [st'| |] eqn:E; [apply IH | by destruct (H st x) |].
  specialize (IH st). by destruct (Promise_all callback st xs).
Qed.

(** When the whole is fulfilled every callback was, one after the other. *)
Lemma Promise_all_fulfilled_inv (st st' : Store) (xs : list K) :
  Promise_all callback st xs = Fulfilled st' →
  match xs with
  | [] => st' = st
  | x :: xs' => ∃ st1, callback st x = Fulfilled st1 ∧
                       Promise_all callback st1 xs' = Fulfilled st'
  end.
Proof.
  destruct xs as [|x xs]; simpl; [congruence|].
  destruct (callback st x) as [st1| |]; [eauto | done |].
  by destruct (Promise_all callback st xs).
Qed.

Lemma Promise_all_fulfilled (st : Store) (xs : list K) :
  (∀ st x, x ∈ xs → ∃ st', callback st x = Fulfilled st') →
  ∃ st', Promise_all callback st xs = Fulfilled st'.
Proof.
  revert st. induction xs as [|x xs IH]; intros st H; simpl; [eauto|].
  destruct (H st x) as [st1 ->]; [left|].
  apply IH. intros st2 y Hy. apply H. by right.
Qed.

End PromiseAll.

Lemma Promise_all_mono {K : Type} (f g : Store → K → Promise Store)
    (st st' : Store) (xs : list K) :
  (∀ st x st', f st x = Fulfilled st' → g st x = Fulfilled st') →
  Promise_all f st xs = Fulfilled st' → Promise_all g st xs = Fulfilled st'.
Proof.
  intros H. revert st. induction xs as [|x xs IH]; intros st Hf; [done|].
  apply Promise_all_fulfilled_inv in Hf as (st1 & H1 & Hf).
  simpl. rewrite (H _ _ _ H1). by apply IH.
Qed.

(** ** [parseShadcnComponents] *)

Lemma fetches_app (c : jsstring) (xs ys : list Event) :
  fetches c (xs ++ ys) = fetches c xs + fetches c ys.
Proof. unfold fetches. by rewrite filter_app, length_app. Qed.

Lemma fetches_imports (c : jsstring) (xs : list jsstring) :
  NoDup xs → fetches c (Import <$> xs) = if decide (c ∈ xs) then 1 else 0.
Proof.
  unfold fetches. induction 1 as [|x xs Hx Hxs IH]; [done|].
  rewrite fmap_cons, filter_cons.
  destruct (decide (Import x = Import c)) as [E|E].
  - simplify_eq. rewrite decide_True by left. simpl. rewrite IH.
    by rewrite decide_False.
  - rewrite IH. destruct (decide (c ∈ xs)).
    + by rewrite decide_True by by right.
    + rewrite decide_False; [done|]. intros [->|?]%elem_of_cons; done.
Qed.

Section ResolverFacts.

Variable shadcn : jsstring → option Component.t.
Variable settle : list jsstring → list jsstring.

#[local] Abbreviation parse := (parseShadcnComponents shadcn settle).
#[local] Abbreviation content_of mod_ := (first_content (Component.files mod_)).

Lemma parseShadcnComponents_unfold (fuel : nat) (str : jsstring) :
  parse (S fuel) str =
  Promise_all (load shadcn (parse fuel))
    (empty_result, Import <$> components str) (settle (components str)).
Proof. reflexivity. Qed.

(** What [load] does when its promise is fulfilled. *)
Lemma load_fulfilled (p : jsstring → Promise Store) (st st' : Store) (x : jsstring) :
  (∀ s, p s ≠ Rejected) →
  load shadcn p st x = Fulfilled st' →
  match shadcn x with
  | None => st' = log [Warn x] st
  | Some mod_ => ∃ r events, p (content_of mod_) = Fulfilled (r, events) ∧
                             st' = log events (store_component mod_ st.1, st.2)
  end.
Proof.
  intros Hp. unfold load. destruct (shadcn x) as [mod_|]; [|congruence].
  destruct (p (content_of mod_)) as [[r events]| |] eqn:E; [|by destruct (Hp _ E)|done].
  intros [= <-]. eauto.
Qed.

Lemma load_not_rejected (p : jsstring → Promise Store) (st : Store) (x : jsstring) :
  load shadcn p st x ≠ Rejected.
Proof.
  unfold load. destruct (shadcn x) as [mod_|]; [|done].
  by destruct (p (content_of mod_)) as [[??]| |].
Qed.

(** The try block of line 72 catches every rejection: the call itself is
    never rejected. *)
Lemma parseShadcnComponents_not_rejected (fuel : nat) (str : jsstring) :
  parse fuel str ≠ Rejected.
Proof.
  destruct fuel; [done|]. rewrite parseShadcnComponents_unfold.
  apply Promise_all_not_rejected. intros. apply load_not_rejected.
Qed.

(** More fuel does not change a result. *)
Lemma parseShadcnComponents_S (fuel : nat) (str : jsstring) (st : Store) :
  parse fuel str = Fulfilled st → parse (S fuel) str = Fulfilled st.
Proof.
  revert str st. induction fuel as [|fuel IH]; intros str st; [done|].
  rewrite (parseShadcnComponents_unfold (S fuel)), (parseShadcnComponents_unfold fuel).
  apply Promise_all_mono. intros st1 x st2 H.
  apply load_fulfilled in H; [|apply parseShadcnComponents_not_rejected].
  set (q := parseShadcnComponents shadcn settle (S fuel)) in *.
  unfold load. destruct (shadcn x) as [mod_|]; [|by subst].
  destruct H as (r & events & H & ->). by rewrite (IH _ _ H).
Qed.

Lemma parseShadcnComponents_mono (fuel fuel' : nat) (str : jsstring) (st : Store) :
  fuel ≤ fuel' → parse fuel str = Fulfilled st → parse fuel' str = Fulfilled st.
Proof.
  induction 1 as [|fuel' _ IH]; [done|].
  intros H. by apply parseShadcnComponents_S, IH.
Qed.

Lemma store_direct_unfold (r : Result.t) (x : jsstring) :
  store_direct shadcn r x =
  match shadcn x with Some mod_ => store_component mod_ r | None => r end.
Proof. reflexivity. Qed.

(** The objects after the loop: each component has stored its own file
    and its own dependencies, and nothing else has been stored. *)
Lemma Promise_all_load_result (fuel : nat) (st st' : Store) (xs : list jsstring) :
  Promise_all (load shadcn (parse fuel)) st xs = Fulfilled st' →
  st'.1 = foldl (store_direct shadcn) st.1 xs.
Proof.
  revert st. induction xs as [|x xs IHxs]; intros st H.
  - by apply Promise_all_fulfilled_inv in H as ->.
  - apply Promise_all_fulfilled_inv in H as (st1 & H1 & H).
    apply IHxs in H as ->.
    apply load_fulfilled in H1; [|apply parseShadcnComponents_not_rejected].
    cbn [foldl]. rewrite store_direct_unfold.
    destruct (shadcn x) as [mod_|]; [|by subst].
    by destruct H1 as (? & ? & _ & ->).
Qed.

(** The events after the loop: those of the calls on the texts of the
    components, one call for each. *)
Lemma Promise_all_load_fetches (fuel : nat) (st st' : Store) (xs : list jsstring)
    (c : jsstring) :
  (∀ str r events, parse fuel str = Fulfilled (r, events) →
     fetches c events = reference_paths shadcn fuel str c) →
  Promise_all (load shadcn (parse fuel)) st xs = Fulfilled st' →
  fetches c st'.2 =
    fetches c st.2 +
    sum_list_with
      (λ x, match shadcn x with
            | Some mod_ => reference_paths shadcn fuel (content_of mod_) c
            | None => 0
            end) xs.
Proof.
  intros IH. revert st. induction xs as [|x xs IHxs]; intros st H.
  - apply Promise_all_fulfilled_inv in H as ->. simpl. lia.
  - apply Promise_all_fulfilled_inv in H as (st1 & H1 & H).
    apply IHxs in H as ->.
    apply load_fulfilled in H1; [|apply parseShadcnComponents_not_rejected].
    cbn [sum_list_with]. destruct (shadcn x) as [mod_|].
    + destruct H1 as (r & events & H1 & ->). simpl.
      rewrite fetches_app, (IH _ _ _ H1). lia.
    + subst st1. simpl. rewrite fetches_app.
      assert (fetches c [Warn x] = 0) as -> by done. lia.
Qed.

(** The result holds what the components the text refers to directly
    store, and nothing of what the calls on their texts return. *)
Lemma parseShadcnComponents_direct (fuel : nat) (str : jsstring) (r : Result.t)
    (events : list Event) :
  parse fuel str = Fulfilled (r, events) →
  r = foldl (store_direct shadcn) empty_result (settle (components str)).
Proof.
  destruct fuel as [|fuel]; [done|]. rewrite parseShadcnComponents_unfold.
  apply Promise_all_load_result.
Qed.

Lemma store_direct_files (r : Result.t) (xs : list jsstring) (path : jsstring) :
  is_Some (Result.files (foldl (store_direct shadcn) r xs) !! path) ↔
  is_Some (Result.files r !! path) ∨
  ∃ c mod_, c ∈ xs ∧ shadcn c = Some mod_ ∧ path = component_path (Component.name mod_).
Proof.
  revert r. induction xs as [|x xs IH]; intros r; cbn [foldl].
  { split; [by left|]. intros [?|(? & ? & []%elem_of_nil & _)]. done. }
  rewrite IH, store_direct_unfold. split.
  - intros [H|(c & mod_ & ? & ? & ?)].
    + destruct (shadcn x) as [mod_|] eqn:Ex; [|by left].
      cbn [store_component Result.files] in H.
      rewrite assign_insert in H by apply component_path_storable.
      apply lookup_insert_is_Some in H as [<-|[_ H]]; [|by left].
      right. exists x, mod_. split_and!; [left | done..].
    + right. exists c, mod_. split_and!; [by right | done..].
  - intros [H|(c & mod_ & [->|Hc]%elem_of_cons & Hmod & ->)].
    + left. destruct (shadcn x) as [mod_|]; [|done].
      cbn [store_component Result.files].
      rewrite assign_insert by apply component_path_storable.
      apply lookup_insert_is_Some.
      destruct (decide (component_path (Component.name mod_) = path)); auto.
    + left. rewrite Hmod. cbn [store_component Result.files].
      rewrite assign_insert by apply component_path_storable.
      rewrite lookup_insert_eq. eauto.
    + right. eauto.
Qed.

(** Whether the call returns. *)
Lemma finite_depth_fulfilled (str : jsstring) :
  (∀ xs, settle xs ≡ₚ xs) →
  finite_depth shadcn str → ∃ fuel st, parse fuel str = Fulfilled st.
Proof.
  intros Hsettle. induction 1 as [str _ IH].
  assert (∀ xs, xs ⊆ components str →
            ∃ fuel, ∀ c mod_, c ∈ xs → shadcn c = Some mod_ →
                      ∃ st, parse fuel (content_of mod_) = Fulfilled st) as Hfuel.
  { induction xs as [|x xs IHxs]; intros Hxs.
    { exists 0. by intros ?? ?%elem_of_nil. }
    destruct IHxs as [n Hn]; [set_solver|].
    destruct (shadcn x) as [mod_|] eqn:Ex.
    - destruct (IH x mod_) as (m & st & Hm); [set_solver | done |].
      exists (n `max` m). intros c mod' [->|Hc]%elem_of_cons Hmod.
      + simplify_eq. exists st. eapply parseShadcnComponents_mono; [|done]. lia.
      + destruct (Hn _ _ Hc Hmod) as [st' Hst'].
        exists st'. eapply parseShadcnComponents_mono; [|done]. lia.
    - exists n. intros c mod' [->|Hc]%elem_of_cons Hmod; [congruence | eauto]. }
  destruct (Hfuel (components str)) as [fuel Hall]; [done|].
  exists (S fuel). rewrite parseShadcnComponents_unfold.
  apply Promise_all_fulfilled. intros st x Hx. rewrite Hsettle in Hx.
  unfold load. destruct (shadcn x) as [mod_|] eqn:Ex; [|eauto].
  destruct (Hall _ _ Hx Ex) as [[r events] ->]. eauto.
Qed.

Lemma fulfilled_finite_depth (fuel : nat) (str : jsstring) (st : Store) :
  (∀ xs, settle xs ≡ₚ xs) →
  parse fuel str = Fulfilled st → finite_depth shadcn str.
Proof.
  intros Hsettle. revert str st.
  induction fuel as [|fuel IH]; intros str st H; [done|].
  rewrite parseShadcnComponents_unfold in H.
  constructor. intros c mod_ Hc Hmod. rewrite <- Hsettle in Hc.
  revert H. generalize (empty_result, Import <$> components str).
  induction (settle (components str)) as [|x xs IHxs]; intros st0 H;
    [by apply elem_of_nil in Hc|].
  apply Promise_all_fulfilled_inv in H as (st1 & H1 & H).
  apply elem_of_cons in Hc as [->|Hc]; [|by eapply IHxs].
  apply load_fulfilled in H1; [|apply parseShadcnComponents_not_rejected].
  rewrite Hmod in H1. destruct H1 as (r & events & H1 & _). by eapply IH.
Qed.

(** C2, as the code has it. The call keeps no set of visited components.
    It returns if and only if every chain of references that starts in the
    text comes to an end, that is, if no cycle of components can be reached
    from it; and what it returns is settled: no further round changes
    it. *)
Theorem returns_iff_finite_depth (str : jsstring) :
  (∀ xs, settle xs ≡ₚ xs) →
  (finite_depth shadcn str ↔ ∃ fuel st, parse fuel str = Fulfilled st) ∧
  (∀ fuel st, parse fuel str = Fulfilled st →
     ∀ fuel', fuel ≤ fuel' → parse fuel' str = Fulfilled st).
Proof.
  intros Hsettle. split.
  - split; [by apply finite_depth_fulfilled|].
    intros (fuel & st & H). by eapply fulfilled_finite_depth.
  - intros fuel st H fuel' Hle. by eapply parseShadcnComponents_mono.
Qed.

(** C3, as the code has it. Within one call the import of a component is
    requested once for every chain of references that leads from the text
    to it: references repeated inside one text count once, references from
    different components count each. *)
Theorem fetched_once_per_reference_path (fuel : nat) (str c : jsstring)
    (r : Result.t) (events : list Event) :
  (∀ xs, settle xs ≡ₚ xs) →
  parse fuel str = Fulfilled (r, events) →
  fetches c events = reference_paths shadcn fuel str c.
Proof.
  intros Hsettle. revert str r events.
  induction fuel as [|fuel IH]; intros str r events H; [done|].
  rewrite parseShadcnComponents_unfold in H.
  apply (Promise_all_load_fetches _ _ _ _ c) in H; [|done].
  cbn [snd] in H. rewrite H. cbn [reference_paths].
  rewrite fetches_imports by apply NoDup_components.
  by rewrite Hsettle.
Qed.

End ResolverFacts.

(** ** The resolver on the sample registries *)

Ltac by_compute := apply (bool_decide_unpack _); vm_compute; exact I.

Lemma in_order_perm (xs : list jsstring) : Sample.in_order xs ≡ₚ xs.
Proof. reflexivity. Qed.

(** C1 on the code: the entry refers to [button] and [button] to [icon].
    The call on the entry requests [icon] too, but returns the file and the
    dependencies of [button] alone; the file of [icon] is in the result of
    the call on the text of [button], which line 87 awaits and drops. The
    files of the preview lack it as well. *)
Theorem nested_result_dropped :
  ∃ r events nested nested_events preview preview_events,
    parseShadcnComponents Sample.chain Sample.in_order 3 Sample.chain_entry =
      Fulfilled (r, events) ∧
    is_Some (Result.files r !! js "/components/ui/button.tsx") ∧
    Result.files r !! js "/components/ui/icon.tsx" = None ∧
    Result.dependencies r !! js "lucide-react" = None ∧
    Import (js "icon") ∈ events ∧
    parseShadcnComponents Sample.chain Sample.in_order 2
      (js "import { Icon } from '@/components/ui/icon'") =
      Fulfilled (nested, nested_events) ∧
    is_Some (Result.files nested !! js "/components/ui/icon.tsx") ∧
    Preview Sample.chain Sample.in_order (Sample.shown [] "export const Gantt = null")
      Sample.tsconfig Sample.utils Sample.content 3
      (Props.mk (js "gantt") Sample.chain_entry None) =
      Fulfilled (preview, preview_events) ∧
    PreviewProvider.files preview !! js "/App.tsx" = Some Sample.chain_entry ∧
    is_Some (PreviewProvider.files preview !! js "/components/ui/button.tsx") ∧
    PreviewProvider.files preview !! js "/components/ui/icon.tsx" = None.
Proof.
  do 6 eexists. split_and!.
  - vm_compute. reflexivity.
  - by_compute.
  - by vm_compute.
  - by vm_compute.
  - by_compute.
  - vm_compute. reflexivity.
  - by_compute.
  - vm_compute. reflexivity.
  - by vm_compute.
  - by_compute.
  - by vm_compute.
Qed.

(** The theorem on the chain of the sample, whose references end. *)
Lemma returns_iff_finite_depth_witness :
  (finite_depth Sample.chain Sample.chain_entry ↔
     ∃ fuel st, parseShadcnComponents Sample.chain Sample.in_order fuel Sample.chain_entry =
                  Fulfilled st) ∧
  (∀ fuel st,
     parseShadcnComponents Sample.chain Sample.in_order fuel Sample.chain_entry =
       Fulfilled st →
     ∀ fuel', fuel ≤ fuel' →
       parseShadcnComponents Sample.chain Sample.in_order fuel' Sample.chain_entry =
         Fulfilled st).
Proof.
  exact (returns_iff_finite_depth Sample.chain Sample.in_order Sample.chain_entry
           in_order_perm).
Defined.

Example chain_returns :
  ∃ st, parseShadcnComponents Sample.chain Sample.in_order 3 Sample.chain_entry = Fulfilled st.
Proof. eexists. vm_compute. reflexivity. Qed.

Lemma cycle_not_finite_depth (str : jsstring) :
  finite_depth Sample.cycle str →
  str ∈ [Sample.cycle_entry; js "import '@/components/ui/b'";
         js "import '@/components/ui/c'"] →
  False.
Proof.
  induction 1 as [str _ IH]. intros Hstr.
  repeat (apply elem_of_cons in Hstr as [->|Hstr]).
  - eapply (IH (js "a")); [by_compute | vm_compute; reflexivity | by_compute].
  - eapply (IH (js "b")); [by_compute | vm_compute; reflexivity | by_compute].
  - eapply (IH (js "c")); [by_compute | vm_compute; reflexivity | by_compute].
  - by apply elem_of_nil in Hstr.
Qed.

(** C2, as the claim has it, fails: on the cycle of [a], [b] and [c] the
    call returns for no bound on its recursion, in whatever order the
    imports settle. *)
Lemma cycle_never_returns :
  ¬ ∃ settle fuel st,
      (∀ xs, settle xs ≡ₚ xs) ∧
      parseShadcnComponents Sample.cycle settle fuel Sample.cycle_entry = Fulfilled st.
Proof.
  intros (settle & fuel & st & Hsettle & H).
  apply fulfilled_finite_depth in H; [|done].
  apply (cycle_not_finite_depth _ H). left.
Qed.

Example cycle_pending :
  parseShadcnComponents Sample.cycle Sample.in_order 50 Sample.cycle_entry = Pending.
Proof. by vm_compute. Qed.

(** The theorem where [a] refers to [b] twice and [b] to nothing: [b] is
    fetched once. *)
Lemma fetched_once_per_reference_path_witness :
  ∃ r events,
    parseShadcnComponents Sample.twice_flat Sample.in_order 3 Sample.twice_entry =
      Fulfilled (r, events) ∧
    fetches (js "b") events =
      reference_paths Sample.twice_flat 3 Sample.twice_entry (js "b") ∧
    reference_paths Sample.twice_flat 3 Sample.twice_entry (js "b") = 1.
Proof.
  do 2 eexists. split; [vm_compute; reflexivity|]. split; [|by vm_compute].
  eapply (fetched_once_per_reference_path Sample.twice_flat Sample.in_order 3);
    [apply in_order_perm | vm_compute; reflexivity].
Defined.

Lemma twice_not_finite_depth (str : jsstring) :
  finite_depth Sample.twice str →
  str ∈ [Sample.twice_entry;
         js "import '@/components/ui/b'; import '@/components/ui/b'"] →
  False.
Proof.
  induction 1 as [str _ IH]. intros Hstr.
  repeat (apply elem_of_cons in Hstr as [->|Hstr]).
  - eapply (IH (js "a")); [by_compute | vm_compute; reflexivity | by_compute].
  - eapply (IH (js "b")); [by_compute | vm_compute; reflexivity | by_compute].
  - by apply elem_of_nil in Hstr.
Qed.

(** C3, as the claim has it, fails: where [b] and [c] both refer to [d],
    the import of [d] is requested twice in one call; and where [a] refers
    to [b] twice and [b] to [a], the call never returns. *)
Lemma shared_component_fetched_twice :
  (∃ r events,
     parseShadcnComponents Sample.diamond Sample.in_order 3 Sample.diamond_entry =
       Fulfilled (r, events) ∧
     fetches (js "d") events = 2) ∧
  ¬ ∃ fuel st,
      parseShadcnComponents Sample.twice Sample.in_order fuel Sample.twice_entry =
        Fulfilled st.
Proof.
  split.
  - do 2 eexists. split; [vm_compute; reflexivity | by vm_compute].
  - intros (fuel & st & H).
    apply fulfilled_finite_depth in H; [|apply in_order_perm].
    apply (twice_not_finite_depth _ H). left.
Qed.

(** ** [processDependencies] *)

Lemma processDependencies_values (deps : Entries) (target : Dict) :
  processDependencies (Some deps) target =
  foldl (λ target dep, assign (dependency_key dep) (dependency_version dep) target)
        target (Object_values deps).
Proof. reflexivity. Qed.

Lemma merge_keeps (values : list jsstring) (target : Dict) (k : jsstring) :
  (∀ d, d ∈ values → dependency_key d ≠ k) →
  foldl (λ target dep, assign (dependency_key dep) (dependency_version dep) target)
        target values !! k = target !! k.
Proof.
  revert target. induction values as [|d values IH]; intros target H; [done|].
  cbn [foldl]. rewrite IH by (intros; apply H; by right).
  apply assign_lookup_ne, H. left.
Qed.

(** The last reference to a name decides its version. *)
Lemma merge_last (pre post : list jsstring) (d : jsstring) (target : Dict) :
  dependency_key d ≠ js "__proto__" →
  (∀ d', d' ∈ post → dependency_key d' ≠ dependency_key d) →
  foldl (λ target dep, assign (dependency_key dep) (dependency_version dep) target)
        target (pre ++ d :: post) !! dependency_key d = Some (dependency_version d).
Proof.
  intros Hd H. rewrite foldl_app. cbn [foldl].
  rewrite merge_keeps, assign_insert by done. apply lookup_insert_eq.
Qed.

Lemma processDependencies_proto (deps : option Entries) (target : Dict) :
  target !! js "__proto__" = None →
  processDependencies deps target !! js "__proto__" = None.
Proof.
  destruct deps as [deps|]; [|done]. rewrite processDependencies_values.
  generalize (Object_values deps). intros values. revert target.
  induction values as [|d values IH]; intros target H; [done|].
  cbn [foldl]. by apply IH, assign_proto.
Qed.

Lemma merges_proto (sources : list (option Entries)) (target : Dict) :
  target !! js "__proto__" = None →
  foldl (λ target deps, processDependencies deps target) target sources
    !! js "__proto__" = None.
Proof.
  revert target. induction sources as [|deps sources IH]; intros target H; [done|].
  cbn [foldl]. by apply IH, processDependencies_proto.
Qed.

Lemma store_direct_proto (shadcn : jsstring → option Component.t) (r : Result.t)
    (xs : list jsstring) :
  Result.dependencies r !! js "__proto__" = None →
  Result.dependencies (foldl (store_direct shadcn) r xs) !! js "__proto__" = None.
Proof.
  revert r. induction xs as [|x xs IH]; intros r H; [done|].
  cbn [foldl]. apply IH. unfold store_direct.
  destruct (shadcn x) as [mod_|]; [|done].
  by apply processDependencies_proto.
Qed.

Lemma assign_proto_lookup (key value : jsstring) (o : Dict) :
  assign key value o !! js "__proto__" = o !! js "__proto__".
Proof.
  unfold assign. case_decide; [done|]. by apply lookup_insert_ne.
Qed.

Lemma merge_proto_lookup (values : list jsstring) (target : Dict) :
  foldl (λ target dep, assign (dependency_key dep) (dependency_version dep) target)
        target values !! js "__proto__" = target !! js "__proto__".
Proof.
  revert target. induction values as [|d values IH]; intros target; [done|].
  cbn [foldl]. by rewrite IH, assign_proto_lookup.
Qed.

(** A name is given by no reference of a list, or by a last one. *)
Lemma last_with_key (values : list jsstring) (k : jsstring) :
  (∀ d, d ∈ values → dependency_key d ≠ k) ∨
  ∃ pre d post, values = pre ++ d :: post ∧ dependency_key d = k ∧
                ∀ d', d' ∈ post → dependency_key d' ≠ k.
Proof.
  induction values as [|x values IH]; [left; by intros ? ?%elem_of_nil|].
  destruct IH as [Hnone|(pre & d & post & -> & Hd & Hpost)].
  - destruct (decide (dependency_key x = k)) as [Hx|Hx].
    + right. by exists [], x, values.
    + left. intros d [->|?]%elem_of_cons; auto.
  - right. by exists (x :: pre), d, post.
Qed.

(** What a merge leaves under a name: the version of the last reference to
    the name, or what was there. *)
Lemma merge_lookup (values : list jsstring) (target : Dict) (k : jsstring) :
  foldl (λ target dep, assign (dependency_key dep) (dependency_version dep) target)
        target values !! k = target !! k ∨
  k ≠ js "__proto__" ∧
  ∃ pre d post, values = pre ++ d :: post ∧ dependency_key d = k ∧
                (∀ d', d' ∈ post → dependency_key d' ≠ k) ∧
                foldl (λ target dep,
                         assign (dependency_key dep) (dependency_version dep) target)
                      target values !! k = Some (dependency_version d).
Proof.
  destruct (decide (k = js "__proto__")) as [->|Hk].
  { left. apply merge_proto_lookup. }
  destruct (last_with_key values k) as [Hnone|(pre & d & post & -> & <- & Hpost)].
  - left. by apply merge_keeps.
  - right. split; [done|]. exists pre, d, post. split_and!; [done..|].
    by apply merge_last.
Qed.

(** Merging several maps one after the other is merging their references
    in the order in which they are read. *)
Lemma merges_values (sources : list (option Entries)) (target : Dict) :
  foldl (λ target deps, processDependencies deps target) target sources =
  foldl (λ target dep, assign (dependency_key dep) (dependency_version dep) target)
        target (references sources).
Proof.
  revert target. induction sources as [|deps sources IH]; intros target; [done|].
  cbn [foldl]. rewrite IH. unfold references. rewrite bind_cons, foldl_app.
  by destruct deps.
Qed.

Lemma references_singleton (deps : option Entries) :
  references [deps] = Object_values (default [] deps).
Proof. unfold references. cbn. apply app_nil_r. Qed.



(** Every entry that merges have written comes from a reference. *)
Lemma merges_provenance (sources : list (option Entries)) (target : Dict)
    (k v : jsstring) :
  foldl (λ target deps, processDependencies deps target) target sources !! k = Some v →
  target !! k = Some v ∨
  ∃ d, d ∈ references sources ∧ dependency_key d = k ∧ dependency_version d = v.
Proof.
  rewrite merges_values.
  destruct (merge_lookup (references sources) target k)
    as [->|(_ & pre & d & post & Hvalues & Hd & _ & ->)]; [by left|].
  intros [= <-]. right. exists d. split_and!; [|done..].
  rewrite Hvalues. set_solver.
Qed.

(** The runtime accumulator after the components [xs] have been stored. *)
Lemma store_direct_dependencies (shadcn : jsstring → option Component.t)
    (r : Result.t) (xs : list jsstring) :
  Result.dependencies (foldl (store_direct shadcn) r xs) =
  foldl (λ target deps, processDependencies deps target) (Result.dependencies r)
        ((λ component, shadcn component ≫= Component.dependencies) <$> xs).
Proof.
  revert r. induction xs as [|x xs IH]; intros r; [done|].
  cbn [foldl fmap list_fmap]. rewrite IH. unfold store_direct.
  by destruct (shadcn x).
Qed.

(** A reference with a separator reads as its name and its version, one
    without as a name at [latest]. *)
Lemma dependency_reference_split (n v : jsstring) :
  n ≠ [] → v ≠ [] → Forall (λ c, dot c = true) (n ++ v) → 64%N ∉ tail n →
  parseDependencyVersion (n ++ js "@" ++ v) = Dependency.mk (Some n) v.
Proof.
  intros Hn Hv Hdot Hat. apply Forall_app in Hdot as [Hdn Hdv].
  change (n ++ js "@" ++ v) with (n ++ 64%N :: v).
  destruct (dependency_match n (64%N :: v) (Some v)) as [i Hi]; try done.
  { intros u1 c u2 -> Hu1 [-> _]. apply Hat.
    destruct u1; [done|]. simpl. set_solver. }
  unfold parseDependencyVersion, String_match.
  by rewrite (exec_from_here _ _ _ _ Hi).
Qed.

Lemma dependency_reference_plain (n : jsstring) :
  n ≠ [] → Forall (λ c, dot c = true) n →
  (∀ a b, n = a ++ js "@" ++ b → a = [] ∨ b = []) →
  parseDependencyVersion n = Dependency.mk (Some n) (js "latest").
Proof.
  intros Hn Hdot Hnone.
  destruct (dependency_match n [] None) as [i Hi]; try done.
  { intros u1 c u2 -> Hu1 (-> & Hu2 & _). rewrite app_nil_r in Hu2.
    by destruct (Hnone u1 u2). }
  rewrite app_nil_r in Hi.
  unfold parseDependencyVersion, String_match.
  by rewrite (exec_from_here _ _ _ _ Hi).
Qed.

(** ** [Preview] *)

Lemma Promise_all_rejected {K : Type} (callback : Store → K → Promise Store)
    (st : Store) (xs : list K) (x : K) :
  x ∈ xs → (∀ st, callback st x = Rejected) → Promise_all callback st xs = Rejected.
Proof.
  intros Hx Hrej. revert st. induction xs as [|y xs IH]; intros st.
  { by apply elem_of_nil in Hx. }
  simpl. apply elem_of_cons in Hx as [<-|Hx]; [by rewrite Hrej|].
  destruct (callback st y); [by apply IH | done | by rewrite IH].
Qed.

Section PreviewFacts.

Variable shadcn : jsstring → option Component.t.
Variable settle : list jsstring → list jsstring.
Variable registry : jsstring → option Registry.t.
Variables tsconfig utils content : jsstring.

#[local] Abbreviation parse' := (parseShadcnComponents shadcn settle).
#[local] Abbreviation store_of :=
  (Preview_store shadcn settle registry tsconfig utils content).
#[local] Abbreviation preview_of :=
  (Preview shadcn settle registry tsconfig utils content).

(** The registry dependencies, once they have all been loaded, have each
    stored their own file and their own dependencies. *)
Lemma Promise_all_load_dependency (fuel : nat) (st st' : Store) (xs : list jsstring) :
  Promise_all (load_dependency shadcn settle fuel) st xs = Fulfilled st' →
  st'.1 = foldl (store_direct shadcn) st.1 xs.
Proof.
  revert st. induction xs as [|x xs IHxs]; intros st H.
  - by apply Promise_all_fulfilled_inv in H as ->.
  - apply Promise_all_fulfilled_inv in H as (st1 & H1 & H).
    apply IHxs in H as ->. cbn [foldl]. f_equal.
    unfold load_dependency in H1. unfold store_direct.
    destruct (shadcn x) as [mod_|]; [|done].
    destruct (parse' fuel _) as [[??]| |]; [|done..]. by simplify_eq.
Qed.

(** What [Preview] has stored when it comes to build its element: the
    files and dependencies of the components that [code] refers to and of
    the registry dependencies, the four fixed files, the file of the
    component on show, and the dependencies of the registry file and of the
    caller, in this order. *)
Lemma Preview_store_fulfilled (fuel : nat) (props : Props.t) (r : Result.t)
    (events : list Event) :
  store_of fuel props = Fulfilled (r, events) →
  ∃ reg initial loaded,
    registry (Props.name props) = Some reg ∧
    initial =
      foldl (store_direct shadcn) empty_result (settle (components (Props.code props))) ∧
    loaded =
      (let scaffold :=
         Result.mk
           (assign (js "/lib/content.ts") content
              (assign (js "/lib/utils.ts") utils
                 (assign (js "/tsconfig.json") tsconfig
                    (assign (js "/App.tsx") (Props.code props) (Result.files initial)))))
           (Result.dependencies initial) (Result.devDependencies initial) in
       match Registry.registryDependencies reg with
       | None => scaffold
       | Some deps => foldl (store_direct shadcn) scaffold (settle (Object_values deps))
       end) ∧
    r = Result.mk
          (assign (js "/components/ui/kibo-ui/" ++ Props.name props ++ js ".tsx")
             (parseContent (parseContent (first_content (Registry.files reg))))
             (Result.files loaded))
          (processDependencies (Props.dependencies props)
             (processDependencies (Registry.dependencies reg) (Result.dependencies loaded)))
          (processDependencies (Registry.devDependencies reg) (Result.devDependencies loaded)).
Proof.
  unfold Preview_store. intros H.
  destruct (registry (Props.name props)) as [reg|];
    destruct (parse' fuel (Props.code props)) as [[[files deps dev] ev0]| |] eqn:Ecode;
    cbn [Promise_both] in H; try done.
  apply parseShadcnComponents_direct in Ecode.
  destruct (parse' fuel _) as [[rs evs]| |];
    (destruct (load_dependencies _ _ _ _ _) as [[[files1 deps1 dev1] ev1]| |] eqn:E);
    cbn [Promise_both] in H; try done.
  injection H as <- <-.
  exists reg, (Result.mk files deps dev). eexists.
  split_and!; [done | exact Ecode | reflexivity |].
  cbn [Result.files Result.dependencies Result.devDependencies].
  unfold load_dependencies in E.
  destruct (Registry.registryDependencies reg) as [rdeps|].
  - apply Promise_all_load_dependency in E. unfold log in E. cbn [fst] in E.
    by rewrite <- E.
  - by simplify_eq.
Qed.

(** One registry dependency that the registry lacks rejects the whole
    call: nothing catches the rejection of its import. *)
Lemma Preview_rejected (fuel : nat) (props : Props.t) (reg : Registry.t)
    (deps : Entries) (dependency : jsstring) (st : Store) :
  (∀ xs, settle xs ≡ₚ xs) →
  registry (Props.name props) = Some reg →
  Registry.registryDependencies reg = Some deps →
  dependency ∈ Object_values deps →
  shadcn dependency = None →
  parse' fuel (Props.code props) = Fulfilled st →
  preview_of fuel props = Rejected.
Proof.
  intros Hsettle Hreg Hdeps Hin Hnone Hcode.
  unfold Preview, Preview_store. rewrite Hreg, Hcode. cbn [Promise_both].
  destruct st as [[files deps0 dev] ev0]. rewrite Hdeps. cbn [load_dependencies].
  rewrite (Promise_all_rejected _ _ _ dependency).
  - by destruct (parse' fuel (parseContent _)) as [[??]| |].
  - by rewrite Hsettle.
  - intros st. unfold load_dependency. by rewrite Hnone.
Qed.

(** C5, as the code has it. The element lists six names at [latest] before
    it spreads the runtime accumulator, and [date-fns] after it; it lists
    two names before it spreads the other accumulator. So the versions that
    resolution gives override those of the names listed first, in both
    maps, and a name listed first that resolution does not give stays at
    [latest]; but [date-fns] is at [latest] whatever resolution gives. *)
Theorem seeded_versions_overridden (fuel : nat) (props : Props.t) (r : Result.t)
    (events : list Event) :
  store_of fuel props = Fulfilled (r, events) →
  ∃ element,
    preview_of fuel props = Fulfilled (element, events) ∧
    (∀ n v, n ≠ js "date-fns" → Result.dependencies r !! n = Some v →
       CustomSetup.dependencies (PreviewProvider.customSetup element) !! n = Some v) ∧
    (∀ n v, Result.devDependencies r !! n = Some v →
       CustomSetup.devDependencies (PreviewProvider.customSetup element) !! n = Some v) ∧
    (∀ n, n ∈ seeded_dependencies → Result.dependencies r !! n = None →
       CustomSetup.dependencies (PreviewProvider.customSetup element) !! n =
         Some (js "latest")) ∧
    (∀ n, n ∈ seeded_devDependencies → Result.devDependencies r !! n = None →
       CustomSetup.devDependencies (PreviewProvider.customSetup element) !! n =
         Some (js "latest")) ∧
    CustomSetup.dependencies (PreviewProvider.customSetup element) !! js "date-fns" =
      Some (js "latest").
Proof.
  intros H. unfold Preview. rewrite H. eexists. split; [reflexivity|].
  cbn [Preview_element PreviewProvider.customSetup CustomSetup.dependencies
       CustomSetup.devDependencies].
  unfold spread. split_and!.
  - intros n v Hn Hv. rewrite lookup_insert_ne by done.
    by apply lookup_union_Some_l.
  - intros n v Hv. by apply lookup_union_Some_l.
  - intros n Hn Hv.
    repeat (apply elem_of_cons in Hn as [->|Hn]);
      try (rewrite lookup_insert_ne, lookup_union_r by (done || by vm_compute);
           by vm_compute).
    by apply elem_of_nil in Hn.
  - intros n Hn Hv. rewrite lookup_union_r by done.
    repeat (apply elem_of_cons in Hn as [->|Hn]); try by vm_compute.
    by apply elem_of_nil in Hn.
  - apply lookup_insert_eq.
Qed.

(** The runtime accumulator that [Preview] hands on: the maps that the
    registry gave and the one of the caller, merged in this order into an
    empty object. *)
Lemma Preview_runtime_map (fuel : nat) (props : Props.t) (r : Result.t)
    (events : list Event) :
  store_of fuel props = Fulfilled (r, events) →
  ∃ reg,
    registry (Props.name props) = Some reg ∧
    Result.dependencies r =
      foldl (λ target deps, processDependencies deps target) ∅
        (discovered_sources shadcn settle reg (Props.code props) ++
         [Props.dependencies props]).
Proof.
  intros H.
  apply Preview_store_fulfilled in H as (reg & initial & loaded & Hreg & -> & -> & ->).
  exists reg. split; [done|].
  cbn [Result.dependencies]. unfold discovered_sources.
  rewrite !foldl_app. cbn [foldl]. do 2 f_equal.
  rewrite <- (store_direct_dependencies shadcn empty_result).
  destruct (Registry.registryDependencies reg) as [rdeps|]; [|done].
  by rewrite store_direct_dependencies.
Qed.


(** C10. [processDependencies] reads the values of a map and never its
    keys. Two maps with the same values merge alike. Each value is read as
    a reference: a value [n@v] writes the version [v] under the name [n], a
    value without a separator writes [latest] under itself, and nothing is
    written that no value reads as. The map of the caller of [Preview] is
    read in the same way and reaches the runtime accumulator: an entry
    [react] with the value [^18.0.0] puts the name [^18.0.0] at [latest]
    into it, and no [react]. *)
Theorem keys_discarded (deps : Entries) (target : Dict) :
  (∀ deps', Object_values deps' = Object_values deps →
     processDependencies (Some deps') target = processDependencies (Some deps) target) ∧
  (∀ pre key n v post,
     deps = pre ++ (key, n ++ js "@" ++ v) :: post →
     n ≠ [] → v ≠ [] → Forall (λ c, dot c = true) (n ++ v) → 64%N ∉ tail n →
     n ≠ js "__proto__" →
     (∀ d', d' ∈ Object_values post → dependency_key d' ≠ n) →
     processDependencies (Some deps) target !! n = Some v) ∧
  (∀ pre key n post,
     deps = pre ++ (key, n) :: post →
     n ≠ [] → Forall (λ c, dot c = true) n →
     (∀ a b, n = a ++ js "@" ++ b → a = [] ∨ b = []) →
     n ≠ js "__proto__" →
     (∀ d', d' ∈ Object_values post → dependency_key d' ≠ n) →
     processDependencies (Some deps) target !! n = Some (js "latest")) ∧
  (∀ k v,
     processDependencies (Some deps) target !! k = Some v →
     target !! k = Some v ∨
     ∃ d, d ∈ Object_values deps ∧ dependency_key d = k ∧ dependency_version d = v) ∧
  (∀ fuel name code r events,
     store_of fuel (Props.mk name code (Some deps)) = Fulfilled (r, events) →
     (∀ pre key d post,
        deps = pre ++ (key, d) :: post →
        dependency_key d ≠ js "__proto__" →
        (∀ d', d' ∈ Object_values post → dependency_key d' ≠ dependency_key d) →
        Result.dependencies r !! dependency_key d = Some (dependency_version d)) ∧
     (∀ k v,
        Result.dependencies r !! k = Some v →
        ∃ reg d,
          registry name = Some reg ∧
          d ∈ references (discovered_sources shadcn settle reg code ++ [Some deps]) ∧
          dependency_key d = k ∧ dependency_version d = v)) ∧
  processDependencies (Some [(js "react", js "^18.0.0")]) ∅ =
    {[ js "^18.0.0" := js "latest" ]}.
Proof.
  assert (∀ pre key d post,
            deps = pre ++ (key, d) :: post →
            Object_values deps = Object_values pre ++ d :: Object_values post) as Hsplit.
  { intros pre key d post ->. unfold Object_values. by rewrite fmap_app. }
  assert (∀ (target' : Dict) pre key d post,
            deps = pre ++ (key, d) :: post →
            dependency_key d ≠ js "__proto__" →
            (∀ d', d' ∈ Object_values post → dependency_key d' ≠ dependency_key d) →
            processDependencies (Some deps) target' !! dependency_key d =
              Some (dependency_version d)) as Hwrite.
  { intros target' pre key d post Hdeps Hd Hpost.
    rewrite processDependencies_values, (Hsplit _ _ _ _ Hdeps). by apply merge_last. }
  split_and!.
  - intros deps' Hvalues. by rewrite !processDependencies_values, Hvalues.
  - intros pre key n v post Hdeps Hn Hv Hdot Hat Hproto Hpost.
    pose proof (dependency_reference_split n v Hn Hv Hdot Hat) as Hparse.
    assert (dependency_key (n ++ js "@" ++ v) = n) as Hkey
      by (unfold dependency_key; by rewrite Hparse).
    assert (dependency_version (n ++ js "@" ++ v) = v) as Hversion
      by (unfold dependency_version; by rewrite Hparse).
    rewrite <- Hkey at 1. rewrite <- Hversion at 2.
    eapply Hwrite; [done | by rewrite Hkey | by rewrite Hkey].
  - intros pre key n post Hdeps Hn Hdot Hnone Hproto Hpost.
    pose proof (dependency_reference_plain n Hn Hdot Hnone) as Hparse.
    assert (dependency_key n = n) as Hkey
      by (unfold dependency_key; by rewrite Hparse).
    assert (dependency_version n = js "latest") as Hversion
      by (unfold dependency_version; by rewrite Hparse).
    rewrite <- Hkey at 1. rewrite <- Hversion.
    eapply Hwrite; [done | by rewrite Hkey | by rewrite Hkey].
  - intros k v H.
    apply (merges_provenance [Some deps]) in H as [H|(d & Hd & ?)]; [by left|].
    right. exists d. split; [|done].
    by rewrite references_singleton in Hd.
  - intros fuel name code r events H.
    apply Preview_runtime_map in H as (reg & Hreg & ->).
    cbn [Props.name Props.code Props.dependencies] in *. split.
    + intros pre key d post Hdeps Hd Hpost.
      rewrite foldl_app. cbn [foldl]. by eapply Hwrite.
    + intros k v H.
      apply merges_provenance in H as [H|(d & Hd & ?)]; [done|].
      by exists reg, d.
  - by vm_compute.
Qed.

End PreviewFacts.

(** ** The preview on the sample registries *)

(** C4 on the code. The registry file of the component on show lists
    [button] and [missing] among its registry dependencies, and the registry
    has no [missing]: the call is rejected, whatever the bound on its
    recursion, and returns no files at all. The same missing component met
    by scanning is caught at line 89: the call returns, with a warning and
    with the file of [button]. *)
Theorem missing_registry_dependency_rejects :
  (∀ fuel,
     Preview Sample.chain Sample.in_order
       (Sample.shown [js "button"; js "missing"] "export const Gantt = null")
       Sample.tsconfig Sample.utils Sample.content (S fuel)
       (Sample.props "import { Gantt } from '@/components/ui/kibo-ui/gantt'" None) =
     Rejected) ∧
  ∃ element events,
    Preview Sample.chain Sample.in_order
      (Sample.shown [js "button"] "export const Gantt = null")
      Sample.tsconfig Sample.utils Sample.content 3
      (Sample.props "import '@/components/ui/missing'; import '@/components/ui/button'" None) =
    Fulfilled (element, events) ∧
    Warn (js "missing") ∈ events ∧
    is_Some (PreviewProvider.files element !! js "/components/ui/button.tsx") ∧
    PreviewProvider.files element !! js "/components/ui/missing.tsx" = None.
Proof.
  split.
  - intros fuel.
    eapply (Preview_rejected _ _ _ _ _ _ _ _ _ _ (js "missing"));
      [apply in_order_perm | vm_compute; reflexivity | reflexivity | by_compute
      | by vm_compute |].
    rewrite parseShadcnComponents_unfold.
    assert (components
              (Props.code (Sample.props
                 "import { Gantt } from '@/components/ui/kibo-ui/gantt'" None)) = [])
      as -> by by vm_compute.
    reflexivity.
  - do 2 eexists. split_and!; [vm_compute; reflexivity | by_compute.. | by vm_compute].
Qed.

(** C5, as the claim has it, fails for [date-fns]: the caller asks for
    version 2.0.0, the accumulator has it, and the element has [latest]. *)
Lemma date_fns_not_overridden :
  ∃ r events element,
    Preview_store Sample.chain Sample.in_order (Sample.shown [] "export const Gantt = null")
      Sample.tsconfig Sample.utils Sample.content 3
      (Sample.props "export default null" (Some (Sample.array [js "date-fns@2.0.0"]))) =
    Fulfilled (r, events) ∧
    Result.dependencies r !! js "date-fns" = Some (js "2.0.0") ∧
    Preview Sample.chain Sample.in_order (Sample.shown [] "export const Gantt = null")
      Sample.tsconfig Sample.utils Sample.content 3
      (Sample.props "export default null" (Some (Sample.array [js "date-fns@2.0.0"]))) =
    Fulfilled (element, events) ∧
    CustomSetup.dependencies (PreviewProvider.customSetup element) !! js "date-fns" =
      Some (js "latest").
Proof.
  do 3 eexists. split_and!; [vm_compute; reflexivity | by vm_compute
                            | vm_compute; reflexivity | by vm_compute].
Qed.

(** The theorem where the caller asks for [clsx] at version 2.1.0 and for
    [autoprefixer] not at all: the element has [clsx] at 2.1.0. *)
Lemma seeded_versions_overridden_witness :
  ∃ r events element,
    Preview_store Sample.chain Sample.in_order (Sample.shown [] "export const Gantt = null")
      Sample.tsconfig Sample.utils Sample.content 3
      (Sample.props "export default null" (Some (Sample.array [js "clsx@2.1.0"]))) =
    Fulfilled (r, events) ∧
    Preview Sample.chain Sample.in_order (Sample.shown [] "export const Gantt = null")
      Sample.tsconfig Sample.utils Sample.content 3
      (Sample.props "export default null" (Some (Sample.array [js "clsx@2.1.0"]))) =
    Fulfilled (element, events) ∧
    CustomSetup.dependencies (PreviewProvider.customSetup element) !! js "clsx" =
      Some (js "2.1.0") ∧
    CustomSetup.devDependencies (PreviewProvider.customSetup element) !! js "autoprefixer" =
      Some (js "latest").
Proof.
  destruct (Preview_store Sample.chain Sample.in_order
              (Sample.shown [] "export const Gantt = null")
              Sample.tsconfig Sample.utils Sample.content 3
              (Sample.props "export default null" (Some (Sample.array [js "clsx@2.1.0"]))))
    as [[r events]| |] eqn:E; [|by vm_compute in E..].
  destruct (seeded_versions_overridden _ _ _ _ _ _ _ _ _ _ E)
    as (element & Hp & Hdeps & _ & _ & Hdev & _).
  exists r, events, element. split_and!; [done | done | |].
  - apply Hdeps; [by vm_compute|]. vm_compute in E. by simplify_eq.
  - apply Hdev; [by_compute|]. vm_compute in E. by simplify_eq.
Defined.



(** The theorem on a map of the caller with the entry of the claim and an
    entry whose value has a separator: the accumulator of [Preview] has
    [zod] at the version of the value, the value [^18.0.0] as a name at
    [latest], and neither [react] nor [validation]. *)
Lemma keys_discarded_witness :
  processDependencies
    (Some [(js "validation", js "zod@^3.0.0"); (js "react", js "^18.0.0")]) ∅
    !! js "zod" = Some (js "^3.0.0") ∧
  processDependencies
    (Some [(js "validation", js "zod@^3.0.0"); (js "react", js "^18.0.0")]) ∅
    !! js "^18.0.0" = Some (js "latest") ∧
  ∃ r events,
    Preview_store Sample.chain Sample.in_order (Sample.shown [] "export const Gantt = null")
      Sample.tsconfig Sample.utils Sample.content 3
      (Props.mk (js "gantt") (js "export default null")
         (Some [(js "validation", js "zod@^3.0.0"); (js "react", js "^18.0.0")])) =
    Fulfilled (r, events) ∧
    Result.dependencies r !! js "zod" = Some (js "^3.0.0") ∧
    Result.dependencies r !! js "^18.0.0" = Some (js "latest") ∧
    Result.dependencies r !! js "react" = None ∧
    Result.dependencies r !! js "validation" = None.
Proof.
  destruct (keys_discarded Sample.chain Sample.in_order
              (Sample.shown [] "export const Gantt = null")
              Sample.tsconfig Sample.utils Sample.content
              [(js "validation", js "zod@^3.0.0"); (js "react", js "^18.0.0")] ∅)
    as (_ & Hsplit & Hplain & _ & Hpreview & _).
  split_and!.
  - apply (Hsplit [] (js "validation") (js "zod") (js "^3.0.0") [(js "react", js "^18.0.0")]);
      [reflexivity | done | done | by_compute | by_compute | by_compute |].
    intros d' ->%list_elem_of_singleton. by_compute.
  - apply (Hplain [(js "validation", js "zod@^3.0.0")] (js "react") (js "^18.0.0") []);
      [reflexivity | done | by_compute | | by_compute | by intros d' ?%elem_of_nil].
    intros a b Hab. destruct a as [|c a]; [by left|]. right.
    destruct b as [|c' b]; [done|]. exfalso.
    assert (64%N ∈ js "^18.0.0") as Hin by (rewrite Hab; set_solver).
    revert Hin. by_compute.
  - destruct (Preview_store Sample.chain Sample.in_order
                (Sample.shown [] "export const Gantt = null")
                Sample.tsconfig Sample.utils Sample.content 3
                (Props.mk (js "gantt") (js "export default null")
                   (Some [(js "validation", js "zod@^3.0.0"); (js "react", js "^18.0.0")])))
      as [[r events]| |] eqn:E; [|by vm_compute in E..].
    destruct (Hpreview _ _ _ _ _ E) as [Hwrite Hprovenance].
    assert (∀ k, k ∈ [js "react"; js "validation"] → Result.dependencies r !! k = None)
      as Hnone.
    { intros k Hk. destruct (Result.dependencies r !! k) as [v|] eqn:Ev; [|done].
      exfalso. destruct (Hprovenance _ _ Ev) as (reg & d & Hreg & Hd & Hkey & _).
      vm_compute in Hreg. injection Hreg as <-. vm_compute in Hd.
      rewrite <- Hkey in Hk. clear Hkey Ev.
      repeat (apply elem_of_cons in Hd as [->|Hd]); [..|by apply elem_of_nil in Hd];
        revert Hk; by_compute. }
    exists r, events. split_and!; [done | | | apply Hnone; set_solver..].
    + apply (Hwrite [] (js "validation") (js "zod@^3.0.0") [(js "react", js "^18.0.0")]);
        [reflexivity | by_compute |].
      intros d' ->%list_elem_of_singleton. by_compute.
    + apply (Hwrite [(js "validation", js "zod@^3.0.0")] (js "react") (js "^18.0.0") []);
        [reflexivity | by_compute | by intros d' ?%elem_of_nil].
Defined.

Example caller_key_discarded :
  ∃ r events,
    Preview_store Sample.chain Sample.in_order (Sample.shown [] "export const Gantt = null")
      Sample.tsconfig Sample.utils Sample.content 3
      (Sample.props "export default null" (Some [(js "react", js "^18.0.0")])) =
    Fulfilled (r, events) ∧
    Result.dependencies r !! js "^18.0.0" = Some (js "latest") ∧
    Result.dependencies r !! js "react" = None.
Proof. do 2 eexists. split_and!; [vm_compute; reflexivity | by vm_compute..]. Qed.

(** * Further properties of the code *)

(** ** [parseDependencyVersion] and [dependencyRegex] *)

(** A lazy [+] that succeeds took some characters of the class. *)
Lemma plus_lazy_Some (p : char → bool) (s : jsstring) (i : nat)
    (caps : list (option jsstring)) (k : Continuation) (z : MatchState) :
  plus_lazy p s i caps k = Some z →
  ∃ u w, s = u ++ w ∧ u ≠ [] ∧ Forall (λ c, p c = true) u ∧
         k (mkState w (i + length u) caps) = Some z.
Proof.
  revert i. induction s as [|c s IH]; intros i H; [done|].
  simpl in H. destruct (p c) eqn:Hc; [|done].
  destruct (k (mkState s (S i) caps)) as [z'|] eqn:E.
  - simplify_eq. exists [c], s. split_and!; [done | done | by repeat constructor |].
    simpl. by rewrite Nat.add_1_r.
  - destruct (IH _ H) as (u & w & -> & Hu & Hp & Hk).
    exists (c :: u), w. split_and!; [done | done | by constructor |].
    simpl. by rewrite <- Nat.add_succ_comm.
Qed.

(** A lazy [+] succeeds on a run of the class when what follows it matches
    at the end of the run at the latest. *)
Lemma plus_lazy_is_Some (p : char → bool) (s : jsstring) (i : nat)
    (caps : list (option jsstring)) (k : Continuation) :
  s ≠ [] → Forall (λ c, p c = true) s →
  is_Some (k (mkState [] (i + length s) caps)) →
  is_Some (plus_lazy p s i caps k).
Proof.
  intros Hs Hp. revert i. induction Hp as [|c s Hc Hp IH]; intros i Hk; [done|].
  simpl. rewrite Hc. destruct (k (mkState s (S i) caps)) eqn:E; [done|].
  destruct s as [|c' s'].
  - simpl in Hk. rewrite Nat.add_1_r, E in Hk. by destruct Hk.
  - apply IH; [done|]. by rewrite Nat.add_succ_comm.
Qed.

(** What a match of [dependencyRegex] at the start of a text says of the
    text. *)
Lemma dependency_match_inv (d : jsstring) (y : MatchState) :
  match_at dependencyRegex d 0 = Some y →
  ∃ n, n ≠ [] ∧ Forall (λ c, dot c = true) n ∧
       ((d = n ∧ captures y = [Some n; None]) ∨
        ∃ v, d = n ++ 64%N :: v ∧ v ≠ [] ∧ Forall (λ c, dot c = true) v ∧
             captures y = [Some n; Some v]).
Proof.
  rewrite dependency_match_at. intros H.
  apply plus_lazy_Some in H as (n & w & -> & Hn & Hdot & H).
  cbn [rest endIndex captures insert list_insert] in H.
  rewrite dependency_version_spec, Nat.sub_0_r, Nat.add_0_l, take_app_length in H.
  exists n. split_and!; [done | done |].
  destruct w as [|c v].
  - left. simplify_eq. by rewrite app_nil_r.
  - case_decide as Hc; [|done]. destruct Hc as (-> & Hv & Hdv).
    right. exists v. by simplify_eq.
Qed.

(** [^] matches at the start only. *)
Lemma dependency_exec_later (s : jsstring) (i : nat) :
  exec_from dependencyRegex s (S i) = None.
Proof. revert i. induction s as [|c s IH]; intros i; [done|]. simpl. apply IH. Qed.

Lemma dependency_String_match (d : jsstring) :
  String_match dependencyRegex d = match_array d 0 <$> match_at dependencyRegex d 0.
Proof.
  unfold String_match. destruct (match_at dependencyRegex d 0) as [y|] eqn:E.
  - by rewrite (exec_from_here _ _ _ _ E).
  - destruct d as [|c d]; cbn [exec_from]; rewrite E; [done|].
    apply dependency_exec_later.
Qed.

Lemma dependency_match_is_Some (d : jsstring) :
  d ≠ [] → Forall (λ c, dot c = true) d → is_Some (match_at dependencyRegex d 0).
Proof.
  intros Hd Hdot. rewrite dependency_match_at.
  apply plus_lazy_is_Some; [done | done |].
  cbn [rest endIndex captures insert list_insert].
  by rewrite dependency_version_spec.
Qed.

(** X1. The expression fails on the empty text and on every text with a
    line break, and on no other: exactly there [parseDependencyVersion]
    returns the name [undefined]; the version is then [latest]. *)
Theorem parseDependencyVersion_undefined (d : jsstring) :
  (Dependency.name (parseDependencyVersion d) = None ↔
     d = [] ∨ ¬ Forall (λ c, dot c = true) d) ∧
  (Dependency.name (parseDependencyVersion d) = None →
     parseDependencyVersion d = Dependency.mk None (js "latest")).
Proof.
  unfold parseDependencyVersion. rewrite dependency_String_match.
  destruct (match_at dependencyRegex d 0) as [y|] eqn:E.
  - destruct (dependency_match_inv _ _ E) as (n & Hn & Hdn & H).
    assert (Dependency.name
              {| Dependency.name := element (default [] (drop 1 <$> (match_array d 0 <$> Some y))) 0;
                 Dependency.version :=
                   default (js "latest")
                     (element (default [] (drop 1 <$> (match_array d 0 <$> Some y))) 1) |}
            = Some n) as Hname.
    { destruct H as [[_ Hy]|(v & _ & _ & _ & Hy)]; simpl; by rewrite Hy. }
    split; [|by rewrite Hname]. rewrite Hname. split; [done|].
    intros [Hd|Hd].
    { destruct H as [[? _]|(v & ? & _)]; subst; [done | by destruct n]. }
    destruct Hd. destruct H as [[-> _]|(v & -> & _ & Hdv & _)]; [done|].
    apply Forall_app. split; [done|]. by constructor.
  - split; [|done]. split; [|done]. intros _.
    destruct (decide (d = [])) as [|Hd]; [by left|]. right. intros Hdot.
    destruct (dependency_match_is_Some d Hd Hdot) as [y Hy]. congruence.
Qed.

(** X2. A reference that the expression matches can be put together again
    from what [parseDependencyVersion] returns: it is the name alone, with
    the version [latest], or the name, an [@] and the version. Neither the
    name nor the version is ever empty. *)
Theorem parseDependencyVersion_reassemble (d n v : jsstring) :
  parseDependencyVersion d = Dependency.mk (Some n) v →
  n ≠ [] ∧ v ≠ [] ∧ ((d = n ∧ v = js "latest") ∨ d = n ++ js "@" ++ v).
Proof.
  unfold parseDependencyVersion. rewrite dependency_String_match.
  destruct (match_at dependencyRegex d 0) as [y|] eqn:E; [|done].
  destruct (dependency_match_inv _ _ E) as (n' & Hn & _ & H).
  destruct H as [[-> Hy]|(v' & -> & Hv & _ & Hy)]; simpl; rewrite Hy; simpl;
    intros [= <- <-]; split_and!; auto.
Qed.

Lemma parseDependencyVersion_reassemble_witness :
  js "@scope/foo" ≠ [] ∧ js "2.0.0" ≠ [] ∧
  ((js "@scope/foo@2.0.0" = js "@scope/foo" ∧ js "2.0.0" = js "latest") ∨
   js "@scope/foo@2.0.0" = js "@scope/foo" ++ js "@" ++ js "2.0.0").
Proof.
  apply (parseDependencyVersion_reassemble (js "@scope/foo@2.0.0")). by vm_compute.
Defined.

(** ** [parseContent] *)

Section LiteralOccurrences.

Variables (a : char) (p q : jsstring).
Hypothesis a_not_in_p : a ∉ p.
Hypothesis a_not_in_q : a ∉ q.
Hypothesis q_unlike_p : ∀ w, starts_with p (q ++ w) = false.

#[local] Abbreviation rewritten i s :=
  (replace_matches (mkRegExp (Str (a :: p)) 0) (a :: q) s i 0).

(** A text without the pattern is left as it is. *)
Lemma rewrite_unchanged (s : jsstring) (i : nat) :
  (∀ u b, s ≠ u ++ (a :: p) ++ b) → rewritten i s = s.
Proof.
  revert i. induction s as [|c t IH]; intros i H; [done|].
  rewrite rewrite_no_match by by apply starts_with_occurs.
  rewrite IH; [done|]. intros u b ->. by apply (H (c :: u) b).
Qed.

(** The rewritten text has no occurrence of the pattern. *)
Lemma rewrite_clean (n : nat) (s : jsstring) (i : nat) (u b : jsstring) :
  length s ≤ n → rewritten i s ≠ u ++ (a :: p) ++ b.
Proof.
  revert s i u. induction n as [|n IH]; intros s i u Hn.
  { destruct s; [|simpl in Hn; lia]. by destruct u. }
  destruct s as [|c t]; [by destruct u|].
  destruct (starts_with (a :: p) (c :: t)) eqn:E.
  - rewrite (rewrite_match _ _ _ _ _ E). intros H.
    assert (length (drop (S (length p)) (c :: t)) ≤ n) as Hdrop.
    { rewrite length_drop. simpl in *. lia. }
    apply app_eq_inv in H as [(k & Hk & H)|(k & -> & H)].
    + destruct k as [|x k].
      * by apply (IH _ (i + S (length p)) [] Hdrop).
      * cbn [app] in H. injection H as <- H.
        destruct u as [|y u]; cbn [app] in Hk.
        -- injection Hk as Hk. subst k.
           pose proof (starts_with_app p b) as Hs. rewrite H in Hs.
           by rewrite q_unlike_p in Hs.
        -- injection Hk as _ Hk. apply a_not_in_q. rewrite Hk. set_solver.
    + by apply (IH _ (i + S (length p)) k Hdrop).
  - rewrite (rewrite_no_match _ _ _ _ _ _ E). intros H.
    destruct u as [|y u]; cbn [app] in H.
    + pose proof (rewrite_keeps_no_match a p q a_not_in_p c t (S i) E) as Hno.
      injection H as -> H. rewrite H in Hno. cbn [starts_with] in Hno.
      by rewrite decide_True, starts_with_app in Hno.
    + injection H as _ H. revert H. apply IH. simpl in Hn. lia.
Qed.

End LiteralOccurrences.

(** X3. No raw registry path is left in a rewritten text: the text that
    [parseContent] returns has no occurrence of [@/registry/new-york/ui/],
    also none that the replacements would form with what is around them. *)
Theorem parseContent_clean (x a b : jsstring) :
  parseContent x ≠ a ++ js "@/registry/new-york/ui/" ++ b.
Proof.
  unfold parseContent, String_replace_global.
  apply (rewrite_clean 64%N (js "/registry/new-york/ui/") (js "/components/ui/")
           ltac:(by_compute) ltac:(by_compute) ltac:(intros w; reflexivity) (length x)).
  done.
Qed.

(** X4. [parseContent] changes a text if and only if the text has an
    occurrence of [@/registry/new-york/ui/]. *)
Theorem parseContent_fixed_points (x : jsstring) :
  parseContent x = x ↔ ∀ a b, x ≠ a ++ js "@/registry/new-york/ui/" ++ b.
Proof.
  split.
  - intros H a b Hx. rewrite <- H in Hx. revert Hx.
    unfold parseContent, String_replace_global.
    apply (rewrite_clean 64%N (js "/registry/new-york/ui/") (js "/components/ui/")
             ltac:(by_compute) ltac:(by_compute) ltac:(intros w; reflexivity) (length x)).
    done.
  - apply (rewrite_unchanged 64%N (js "/registry/new-york/ui/") (js "/components/ui/")).
Qed.

(** ** [processDependencies] *)

(** X5. A merge deletes nothing and touches only the names that its map
    gives: a name of the accumulator stays a name of it, and a name that no
    value of the map parses to keeps its entry, present or absent. *)
Theorem processDependencies_frame (deps : option Entries) (target : Dict) (k : jsstring) :
  (is_Some (target !! k) → is_Some (processDependencies deps target !! k)) ∧
  ((∀ entries d, deps = Some entries → d ∈ Object_values entries →
      dependency_key d ≠ k) →
   processDependencies deps target !! k = target !! k).
Proof.
  destruct deps as [entries|]; [|done]. rewrite processDependencies_values. split.
  - intros Hk.
    destruct (merge_lookup (Object_values entries) target k)
      as [->|(_ & pre & d & post & _ & _ & _ & ->)]; [done | eauto].
  - intros H. apply merge_keeps. intros d Hd. by apply (H entries).
Qed.

(** X6. Merging the same map a second time changes nothing. *)
Theorem processDependencies_idempotent (deps : option Entries) (target : Dict) :
  processDependencies deps (processDependencies deps target) =
  processDependencies deps target.
Proof.
  destruct deps as [entries|]; [|done]. rewrite !processDependencies_values.
  set (values := Object_values entries). apply map_eq. intros k.
  destruct (decide (k = js "__proto__")) as [->|Hk].
  { by rewrite !merge_proto_lookup. }
  destruct (last_with_key values k) as [Hnone|(pre & d & post & Hvalues & <- & Hpost)].
  - by rewrite merge_keeps.
  - rewrite Hvalues. by rewrite !merge_last.
Qed.

Lemma processDependencies_provenance (deps : option Entries) (target : Dict)
    (k v : jsstring) :
  processDependencies deps target !! k = Some v →
  target !! k = Some v ∨
  ∃ entries d, deps = Some entries ∧ d ∈ Object_values entries ∧
               dependency_key d = k ∧ dependency_version d = v.
Proof.
  destruct deps as [entries|]; [|by left]. rewrite processDependencies_values.
  destruct (merge_lookup (Object_values entries) target k)
    as [->|(_ & pre & d & post & Hvalues & Hd & _ & ->)]; [by left|].
  intros [= <-]. right. exists entries, d. split_and!; [done | | done..].
  rewrite Hvalues. set_solver.
Qed.

(** ** [parseShadcnComponents], further *)

Lemma components_parseContent (x : jsstring) :
  components (parseContent x) = components x.
Proof.
  unfold components.
  assert (parseContent (parseContent x) = parseContent x) as ->; [|done].
  unfold parseContent, String_replace_global.
  apply (rewrite_idempotent 64%N (js "/registry/new-york/ui/") (js "/components/ui/"));
    [by_compute | by_compute | intros w; reflexivity].
Qed.

Section ResolverMore.

Variable shadcn : jsstring → option Component.t.
Variable settle : list jsstring → list jsstring.

#[local] Abbreviation parse2 := (parseShadcnComponents shadcn settle).

(** X7. Resolving a text that has been rewritten and resolving the text as
    it was give the same: the same files and dependencies, and the same
    imports and warnings. *)
Theorem parseShadcnComponents_parseContent (fuel : nat) (x : jsstring) :
  parse2 fuel (parseContent x) = parse2 fuel x.
Proof.
  destruct fuel as [|fuel]; [done|].
  by rewrite !parseShadcnComponents_unfold, components_parseContent.
Qed.

Lemma Promise_all_load_events (fuel : nat) (st st' : Store) (xs : list jsstring) :
  Promise_all (load shadcn (parse2 fuel)) st xs = Fulfilled st' →
  (∀ e, e ∈ st.2 → e ∈ st'.2) ∧
  (∀ c, c ∈ xs → shadcn c = None → Warn c ∈ st'.2).
Proof.
  revert st. induction xs as [|x xs IH]; intros st H.
  - apply Promise_all_fulfilled_inv in H as ->. split; [done|].
    by intros c ?%elem_of_nil.
  - apply Promise_all_fulfilled_inv in H as (st1 & H1 & H).
    apply IH in H as [Hkeep Hwarn].
    apply load_fulfilled in H1; [|apply parseShadcnComponents_not_rejected].
    assert (∀ e, e ∈ st.2 → e ∈ st1.2) as Hst.
    { intros e He. destruct (shadcn x) as [mod_|].
      - destruct H1 as (r & events & _ & ->). simpl. set_solver.
      - subst st1. simpl. set_solver. }
    split; [by auto|].
    intros c [->|Hc]%elem_of_cons Hnone; [|by auto].
    apply Hkeep. rewrite Hnone in H1. subst st1. simpl. set_solver.
Qed.

Lemma store_direct_absent (r : Result.t) (xs : list jsstring) :
  foldl (store_direct shadcn) r xs =
  foldl (store_direct shadcn) r (filter (λ c, is_Some (shadcn c)) xs).
Proof.
  revert r. induction xs as [|x xs IH]; intros r; [done|].
  rewrite filter_cons. cbn [foldl]. rewrite store_direct_unfold.
  destruct (shadcn x) as [mod_|] eqn:Ex.
  - rewrite decide_True by done. cbn [foldl].
    by rewrite store_direct_unfold, Ex, IH.
  - rewrite decide_False by by intros [??]. apply IH.
Qed.

(** X8. A call is never rejected, whatever the registry lacks: every import
    that fails is caught at line 89. For each component that the text refers
    to and the registry lacks, the call requests the import, prints the
    warning and goes on; its result is the one it would have without these
    references. *)
Theorem missing_components_skipped (fuel : nat) (str : jsstring) :
  (∀ xs, settle xs ≡ₚ xs) →
  parse2 fuel str ≠ Rejected ∧
  (∀ r events,
     parse2 fuel str = Fulfilled (r, events) →
     (∀ c, c ∈ components str → shadcn c = None →
        Import c ∈ events ∧ Warn c ∈ events) ∧
     r = foldl (store_direct shadcn) empty_result
           (filter (λ c, is_Some (shadcn c)) (settle (components str)))).
Proof.
  intros Hsettle. split; [apply parseShadcnComponents_not_rejected|].
  intros r events H. split.
  - intros c Hc Hnone. destruct fuel as [|fuel]; [done|].
    rewrite parseShadcnComponents_unfold in H.
    apply Promise_all_load_events in H as [Hkeep Hwarn]. cbn [snd] in *. split.
    + apply Hkeep. by apply list_elem_of_fmap_2.
    + apply Hwarn; [by rewrite Hsettle | done].
  - rewrite <- store_direct_absent. by eapply parseShadcnComponents_direct.
Qed.

Lemma store_direct_provenance (get : Result.t → Dict)
    (field : Component.t → option Entries) (xs : list jsstring) (r : Result.t)
    (k v : jsstring) :
  (∀ mod_ r, get (store_component mod_ r) = processDependencies (field mod_) (get r)) →
  get (foldl (store_direct shadcn) r xs) !! k = Some v →
  get r !! k = Some v ∨
  ∃ c mod_ entries d, c ∈ xs ∧ shadcn c = Some mod_ ∧ field mod_ = Some entries ∧
                      d ∈ Object_values entries ∧
                      dependency_key d = k ∧ dependency_version d = v.
Proof.
  intros Hget. revert r. induction xs as [|x xs IH]; intros r H; [by left|].
  cbn [foldl] in H. apply IH in H as [H|(c & mod_ & entries & d & ? & ?)].
  - rewrite store_direct_unfold in H. destruct (shadcn x) as [mod_|] eqn:Ex; [|by left].
    rewrite Hget in H.
    apply processDependencies_provenance in H as [?|(entries & d & ? & ? & ? & ?)];
      [by left|].
    right. exists x, mod_, entries, d. split_and!; [left | done..].
  - right. exists c, mod_, entries, d. split_and!; [by right | naive_solver..].
Qed.

(** X9. The two maps that a call returns are filled apart and from the
    components that the text itself refers to: every entry of the runtime
    map is what a value of the [dependencies] of such a component parses to,
    and every entry of the other map comes in the same way from its
    [devDependencies]. *)
Theorem dependencies_of_direct_components (fuel : nat) (str : jsstring) (r : Result.t)
    (events : list Event) (k v : jsstring) :
  (∀ xs, settle xs ≡ₚ xs) →
  parse2 fuel str = Fulfilled (r, events) →
  (Result.dependencies r !! k = Some v →
   ∃ c mod_ entries d,
     c ∈ components str ∧ shadcn c = Some mod_ ∧
     Component.dependencies mod_ = Some entries ∧ d ∈ Object_values entries ∧
     dependency_key d = k ∧ dependency_version d = v) ∧
  (Result.devDependencies r !! k = Some v →
   ∃ c mod_ entries d,
     c ∈ components str ∧ shadcn c = Some mod_ ∧
     Component.devDependencies mod_ = Some entries ∧ d ∈ Object_values entries ∧
     dependency_key d = k ∧ dependency_version d = v).
Proof.
  intros Hsettle H. apply parseShadcnComponents_direct in H as ->. split; intros H.
  - apply (store_direct_provenance Result.dependencies Component.dependencies) in H
      as [H|(c & mod_ & entries & d & Hc & ?)]; [done | | done].
    rewrite Hsettle in Hc. eauto 10.
  - apply (store_direct_provenance Result.devDependencies Component.devDependencies) in H
      as [H|(c & mod_ & entries & d & Hc & ?)]; [done | | done].
    rewrite Hsettle in Hc. eauto 10.
Qed.

End ResolverMore.

(** ** [Preview], further *)

Lemma scaffold_not_component (path name : jsstring) :
  path ∈ scaffold_paths → component_path name ≠ path.
Proof.
  intros Hpath. repeat (apply elem_of_cons in Hpath as [->|Hpath]); try done.
  by apply elem_of_nil in Hpath.
Qed.

Lemma store_direct_files_other (shadcn : jsstring → option Component.t)
    (r : Result.t) (xs : list jsstring) (path : jsstring) :
  (∀ name, component_path name ≠ path) →
  Result.files (foldl (store_direct shadcn) r xs) !! path = Result.files r !! path.
Proof.
  intros Hpath. revert r. induction xs as [|x xs IH]; intros r; [done|].
  cbn [foldl]. rewrite IH, store_direct_unfold.
  destruct (shadcn x) as [mod_|]; [|done].
  cbn [store_component Result.files]. by apply assign_lookup_ne.
Qed.

Section PreviewMore.

Variable shadcn : jsstring → option Component.t.
Variable settle : list jsstring → list jsstring.
Variable registry : jsstring → option Registry.t.
Variables tsconfig utils content : jsstring.

#[local] Abbreviation parse3 := (parseShadcnComponents shadcn settle).
#[local] Abbreviation store3 :=
  (Preview_store shadcn settle registry tsconfig utils content).
#[local] Abbreviation preview3 :=
  (Preview shadcn settle registry tsconfig utils content).

Lemma Preview_fulfilled (fuel : nat) (props : Props.t) (element : PreviewProvider.t)
    (events : list Event) :
  preview3 fuel props = Fulfilled (element, events) →
  ∃ r, store3 fuel props = Fulfilled (r, events) ∧ element = Preview_element r.
Proof.
  unfold Preview. destruct (store3 fuel props) as [[r ev]| |]; [|done..].
  intros [= <- <-]. eauto.
Qed.

(** X10. The files that [Preview] hands over always hold the code of the
    caller at [/App.tsx], the three imported texts at their fixed paths, and
    at [/components/ui/kibo-ui/<name>.tsx] the first content block of the
    registry file, rewritten; no component of the registry replaces any of
    them. *)
Theorem Preview_fixed_files (fuel : nat) (props : Props.t)
    (element : PreviewProvider.t) (events : list Event) :
  preview3 fuel props = Fulfilled (element, events) →
  ∃ reg,
    registry (Props.name props) = Some reg ∧
    PreviewProvider.files element !! js "/App.tsx" = Some (Props.code props) ∧
    PreviewProvider.files element !! js "/tsconfig.json" = Some tsconfig ∧
    PreviewProvider.files element !! js "/lib/utils.ts" = Some utils ∧
    PreviewProvider.files element !! js "/lib/content.ts" = Some content ∧
    PreviewProvider.files element
      !! (js "/components/ui/kibo-ui/" ++ Props.name props ++ js ".tsx") =
      Some (parseContent (first_content (Registry.files reg))).
Proof.
  intros H. apply Preview_fulfilled in H as (r & H & ->).
  apply Preview_store_fulfilled in H as (reg & initial & loaded & Hreg & _ & Hloaded & ->).
  exists reg. split; [done|].
  cbn [Preview_element PreviewProvider.files Result.files].
  assert (∀ path, path ∈ scaffold_paths →
            Result.files loaded !! path =
            assign (js "/lib/content.ts") content
              (assign (js "/lib/utils.ts") utils
                 (assign (js "/tsconfig.json") tsconfig
                    (assign (js "/App.tsx") (Props.code props) (Result.files initial))))
              !! path) as Hscaffold.
  { intros path Hpath. rewrite Hloaded. cbn zeta.
    destruct (Registry.registryDependencies reg); [|done].
    rewrite store_direct_files_other; [done|].
    intros name. by apply scaffold_not_component. }
  split_and!.
  - rewrite assign_lookup_ne, Hscaffold by (done || by_compute).
    rewrite !assign_lookup_ne by done. rewrite assign_insert by done.
    apply lookup_insert_eq.
  - rewrite assign_lookup_ne, Hscaffold by (done || by_compute).
    rewrite !assign_lookup_ne by done. rewrite assign_insert by done.
    apply lookup_insert_eq.
  - rewrite assign_lookup_ne, Hscaffold by (done || by_compute).
    rewrite !assign_lookup_ne by done. rewrite assign_insert by done.
    apply lookup_insert_eq.
  - rewrite assign_lookup_ne, Hscaffold by (done || by_compute).
    rewrite assign_insert by done. apply lookup_insert_eq.
  - rewrite assign_insert by done. rewrite lookup_insert_eq. f_equal.
    unfold parseContent, String_replace_global.
    apply (rewrite_idempotent 64%N (js "/registry/new-york/ui/") (js "/components/ui/"));
      [by_compute | by_compute | intros w; reflexivity].
Qed.

(** X11. The dependencies of the caller reach the runtime map and nothing
    else: with them, [Preview] stores the files, the other map and the
    events that it stores without them, and the runtime map of that call
    with the map of the caller merged into it. *)
Theorem caller_dependencies_runtime_only (fuel : nat) (name code : jsstring)
    (demoDependencies : option Entries) (r : Result.t) (events : list Event) :
  store3 fuel (Props.mk name code None) = Fulfilled (r, events) →
  store3 fuel (Props.mk name code demoDependencies) =
    Fulfilled
      (Result.mk (Result.files r)
         (processDependencies demoDependencies (Result.dependencies r))
         (Result.devDependencies r),
       events).
Proof.
  unfold Preview_store. cbn [Props.name Props.code Props.dependencies].
  destruct (Promise_both _ _) as [[reg [[files deps0 dev] ev0]]| |]; [|done..].
  destruct (Promise_both _ _) as [[[rs evs] [[files1 deps1 dev1] ev1]]| |]; [|done..].
  by intros [= <- <-].
Qed.

Lemma scaffold_is_Some (code : jsstring) (m : Dict) (path : jsstring) :
  is_Some (assign (js "/lib/content.ts") content
             (assign (js "/lib/utils.ts") utils
                (assign (js "/tsconfig.json") tsconfig
                   (assign (js "/App.tsx") code m))) !! path) ↔
  path ∈ scaffold_paths ∨ is_Some (m !! path).
Proof.
  rewrite !assign_insert by done. rewrite !lookup_insert_is_Some'.
  unfold scaffold_paths. rewrite !elem_of_cons, elem_of_nil. naive_solver.
Qed.

(** X12. The files that [Preview] hands over are the four fixed files, the
    file of the component on show, and one file for each component of the
    registry that the code of the caller refers to or that the registry
    file lists as a registry dependency, under the name the component
    gives itself; there is no other file, and none for what the component
    on show or the components refer to in their own texts. *)
Theorem Preview_files_domain (fuel : nat) (props : Props.t)
    (element : PreviewProvider.t) (events : list Event) (path : jsstring) :
  (∀ xs, settle xs ≡ₚ xs) →
  preview3 fuel props = Fulfilled (element, events) →
  ∃ reg,
    registry (Props.name props) = Some reg ∧
    (is_Some (PreviewProvider.files element !! path) ↔
     path ∈ scaffold_paths ∨
     path = js "/components/ui/kibo-ui/" ++ Props.name props ++ js ".tsx" ∨
     ∃ c mod_,
       (c ∈ components (Props.code props) ∨
        c ∈ Object_values (default [] (Registry.registryDependencies reg))) ∧
       shadcn c = Some mod_ ∧ path = component_path (Component.name mod_)).
Proof.
  intros Hsettle H. apply Preview_fulfilled in H as (r & H & ->).
  apply Preview_store_fulfilled in H
    as (reg & initial & loaded & Hreg & Hinitial & Hloaded & ->).
  exists reg. split; [done|].
  assert (is_Some (Result.files initial !! path) ↔
          ∃ c mod_, c ∈ components (Props.code props) ∧ shadcn c = Some mod_ ∧
                    path = component_path (Component.name mod_)) as Hcode.
  { rewrite Hinitial, store_direct_files. cbn [empty_result Result.files].
    rewrite lookup_empty. setoid_rewrite Hsettle.
    split; [|by right]. by intros [[? [=]]|?]. }
  assert (is_Some (Result.files loaded !! path) ↔
          path ∈ scaffold_paths ∨ is_Some (Result.files initial !! path) ∨
          ∃ c mod_,
            c ∈ Object_values (default [] (Registry.registryDependencies reg)) ∧
            shadcn c = Some mod_ ∧ path = component_path (Component.name mod_))
    as Hdeps.
  { rewrite Hloaded. cbn zeta.
    destruct (Registry.registryDependencies reg) as [deps|]; cbn [default].
    - rewrite store_direct_files. cbn [Result.files].
      rewrite scaffold_is_Some. setoid_rewrite Hsettle. naive_solver.
    - cbn [Result.files]. rewrite scaffold_is_Some.
      setoid_rewrite elem_of_nil. naive_solver. }
  cbn [Preview_element PreviewProvider.files Result.files].
  rewrite assign_insert by done. rewrite lookup_insert_is_Some', Hdeps, Hcode.
  naive_solver.
Qed.

Lemma finite_depth_parseContent (x : jsstring) :
  finite_depth shadcn (parseContent x) ↔ finite_depth shadcn x.
Proof.
  split; inversion 1 as [str Hstr]; subst; constructor; intros c mod_ Hc;
    apply Hstr; by rewrite ?components_parseContent in *.
Qed.

Lemma Promise_all_fulfilled_each {K : Type} (callback : Store → K → Promise Store)
    (st st' : Store) (xs : list K) (x : K) :
  Promise_all callback st xs = Fulfilled st' → x ∈ xs →
  ∃ st1 st2, callback st1 x = Fulfilled st2.
Proof.
  revert st. induction xs as [|y xs IH]; intros st H Hx; [by apply elem_of_nil in Hx|].
  apply Promise_all_fulfilled_inv in H as (st1 & H1 & H).
  apply elem_of_cons in Hx as [->|Hx]; [eauto | by eapply IH].
Qed.

Lemma dependencies_fuel (xs : list jsstring) :
  (∀ xs, settle xs ≡ₚ xs) →
  (∀ d, d ∈ xs → ∃ mod_, shadcn d = Some mod_ ∧
                         finite_depth shadcn (first_content (Component.files mod_))) →
  ∃ fuel, ∀ d, d ∈ xs →
    ∃ mod_ st, shadcn d = Some mod_ ∧
               parse3 fuel (first_content (Component.files mod_)) = Fulfilled st.
Proof.
  intros Hsettle. induction xs as [|x xs IH]; intros H.
  { exists 0. by intros d ?%elem_of_nil. }
  destruct IH as [n Hn]; [intros; apply H; by right|].
  destruct (H x) as (mod_ & Hmod & Hdepth); [left|].
  apply (finite_depth_fulfilled shadcn settle) in Hdepth as (m & st & Hm); [|done].
  exists (n `max` m). intros d [->|Hd]%elem_of_cons.
  - exists mod_, st. split; [done|]. eapply parseShadcnComponents_mono; [|done]. lia.
  - destruct (Hn d Hd) as (mod' & st' & ? & ?). exists mod', st'. split; [done|].
    eapply parseShadcnComponents_mono; [|done]. lia.
Qed.

(** X13. [Preview] returns if and only if the name has a registry file,
    every registry dependency that the file lists is in the registry, and
    no cycle of references can be reached from the code of the caller, from
    the text of the component on show or from the text of a registry
    dependency. *)
Theorem Preview_returns_iff (props : Props.t) :
  (∀ xs, settle xs ≡ₚ xs) →
  (∃ fuel element, preview3 fuel props = Fulfilled element) ↔
  ∃ reg,
    registry (Props.name props) = Some reg ∧
    finite_depth shadcn (Props.code props) ∧
    finite_depth shadcn (first_content (Registry.files reg)) ∧
    ∀ d, d ∈ Object_values (default [] (Registry.registryDependencies reg)) →
         ∃ mod_, shadcn d = Some mod_ ∧
                 finite_depth shadcn (first_content (Component.files mod_)).
Proof.
  intros Hsettle. split.
  - intros (fuel & [element events] & H).
    apply Preview_fulfilled in H as (r & H & _). revert H. unfold Preview_store.
    destruct (registry (Props.name props)) as [reg|];
      destruct (parse3 fuel (Props.code props)) as [[[files deps dev] ev0]| |] eqn:Ecode;
      cbn [Promise_both]; try done.
    destruct (parse3 fuel (parseContent _)) as [[rs evs]| |] eqn:Eshown;
      (destruct (load_dependencies _ _ _ _ _) as [[[files1 deps1 dev1] ev1]| |] eqn:E);
      cbn [Promise_both]; try done.
    intros _. exists reg. split_and!; [done | by eapply fulfilled_finite_depth | |].
    + apply finite_depth_parseContent. by eapply fulfilled_finite_depth.
    + intros d Hd. unfold load_dependencies in E.
      destruct (Registry.registryDependencies reg) as [rdeps|];
        [|by apply elem_of_nil in Hd].
      cbn [default] in Hd. rewrite <- Hsettle in Hd.
      destruct (Promise_all_fulfilled_each _ _ _ _ _ E Hd) as (st1 & st2 & H).
      unfold load_dependency in H. destruct (shadcn d) as [mod_|]; [|done].
      exists mod_. split; [done|].
      destruct (parse3 fuel (first_content _)) as [[??]| |] eqn:Ed; [|done..].
      by eapply fulfilled_finite_depth.
  - intros (reg & Hreg & Hcode & Hshown & Hdeps).
    apply (finite_depth_fulfilled shadcn settle) in Hcode as (f1 & st1 & H1); [|done].
    apply finite_depth_parseContent, (finite_depth_fulfilled shadcn settle) in Hshown
      as (f2 & st2 & H2); [|done].
    apply dependencies_fuel in Hdeps as [f3 H3]; [|done].
    set (fuel := f1 `max` (f2 `max` f3)).
    assert (parse3 fuel (Props.code props) = Fulfilled st1) as H1'
      by (eapply parseShadcnComponents_mono; [|done]; lia).
    assert (parse3 fuel (parseContent (first_content (Registry.files reg))) =
            Fulfilled st2) as H2'
      by (eapply parseShadcnComponents_mono; [|done]; lia).
    exists fuel. unfold Preview, Preview_store. rewrite Hreg, H1'.
    destruct st1 as [[files deps dev] ev0]. cbn [Promise_both]. rewrite H2'.
    destruct st2 as [rs evs].
    assert (∃ st, load_dependencies shadcn settle fuel
                    (Result.mk
                       (assign (js "/lib/content.ts") content
                          (assign (js "/lib/utils.ts") utils
                             (assign (js "/tsconfig.json") tsconfig
                                (assign (js "/App.tsx") (Props.code props) files))))
                       deps dev, ImportRegistry (Props.name props) :: ev0)
                    (Registry.registryDependencies reg) = Fulfilled st) as [st ->].
    { unfold load_dependencies.
      destruct (Registry.registryDependencies reg) as [rdeps|]; [|eauto].
      apply Promise_all_fulfilled. intros st d Hd. rewrite Hsettle in Hd.
      destruct (H3 d Hd) as (mod_ & st' & Hmod & Hst').
      unfold load_dependency. rewrite Hmod.
      assert (parse3 fuel (first_content (Component.files mod_)) = Fulfilled st') as ->
        by (eapply parseShadcnComponents_mono; [|done]; lia).
      destruct st'. eauto. }
    destruct st as [[files1 deps1 dev1] ev1]. cbn [Promise_both]. eauto.
Qed.

Lemma Promise_all_rejected_inv {K : Type} (callback : Store → K → Promise Store)
    (st : Store) (xs : list K) :
  Promise_all callback st xs = Rejected →
  ∃ x st1, x ∈ xs ∧ callback st1 x = Rejected.
Proof.
  revert st. induction xs as [|y xs IH]; intros st H; [done|].
  simpl in H. destruct (callback st y) as [st1| |] eqn:E.
  - destruct (IH _ H) as (x & st2 & ? & ?). exists x, st2. split; [by right | done].
  - exists y, st. split; [left | done].
  - destruct (Promise_all callback st xs) eqn:E'; try done.
    destruct (IH _ E') as (x & st2 & ? & ?). exists x, st2. split; [by right | done].
Qed.

Lemma load_dependencies_rejected (fuel : nat) (st : Store)
    (registryDependencies : option Entries) :
  (∀ xs, settle xs ≡ₚ xs) →
  load_dependencies shadcn settle fuel st registryDependencies = Rejected →
  ∃ d, d ∈ Object_values (default [] registryDependencies) ∧ shadcn d = None.
Proof.
  intros Hsettle E. unfold load_dependencies in E.
  destruct registryDependencies as [rdeps|]; [|done].
  apply Promise_all_rejected_inv in E as (d & st1 & Hd & E).
  exists d. split; [by rewrite Hsettle in Hd|].
  unfold load_dependency in E. destruct (shadcn d) as [mod_|]; [|done].
  destruct (parse3 fuel (first_content _)) as [[??]| |] eqn:E'; try done.
  destruct (parseShadcnComponents_not_rejected _ _ _ _ E').
Qed.

(** X14. [Preview] is rejected in two cases and no other: the name has no
    registry file; or it has one, the scan of the code of the caller
    returns, and the registry lacks a registry dependency that the file
    lists. *)
Theorem Preview_rejected_iff (props : Props.t) :
  (∀ xs, settle xs ≡ₚ xs) →
  (∃ fuel, preview3 fuel props = Rejected) ↔
  registry (Props.name props) = None ∨
  ∃ reg d,
    registry (Props.name props) = Some reg ∧
    finite_depth shadcn (Props.code props) ∧
    d ∈ Object_values (default [] (Registry.registryDependencies reg)) ∧
    shadcn d = None.
Proof.
  intros Hsettle. split.
  - intros [fuel H]. revert H. unfold Preview, Preview_store.
    destruct (registry (Props.name props)) as [reg|]; [|by left].
    destruct (parse3 fuel (Props.code props)) as [[[files deps dev] ev0]| |] eqn:Ecode;
      cbn [Promise_both];
      [| by destruct (parseShadcnComponents_not_rejected _ _ _ _ Ecode) | done].
    destruct (load_dependencies _ _ _ _ _) as [[[files1 deps1 dev1] ev1]| |] eqn:E.
    + destruct (parse3 fuel (parseContent _)) as [[??]| |] eqn:Eshown; [done | | done].
      destruct (parseShadcnComponents_not_rejected _ _ _ _ Eshown).
    + intros _. right.
      apply load_dependencies_rejected in E as (d & Hd & Hnone); [|done].
      exists reg, d. split_and!; [done | | done | done].
      exact (fulfilled_finite_depth _ _ _ _ _ Hsettle Ecode).
    + destruct (parse3 fuel (parseContent _)) as [[??]| |] eqn:Eshown; [done | | done].
      destruct (parseShadcnComponents_not_rejected _ _ _ _ Eshown).
  - intros [H|(reg & d & Hreg & Hcode & Hd & Hnone)].
    + exists 0. unfold Preview, Preview_store. by rewrite H.
    + apply (finite_depth_fulfilled shadcn settle) in Hcode as (fuel & st & H); [|done].
      exists fuel.
      destruct (Registry.registryDependencies reg) as [rdeps|] eqn:Erdeps;
        [|by apply elem_of_nil in Hd].
      by eapply Preview_rejected.
Qed.

End PreviewMore.

Lemma Preview_files_domain_witness :
  ∃ reg,
    Sample.shown [js "icon"] "import '@/registry/new-york/ui/button'" (js "gantt") =
      Some reg ∧
    (is_Some (PreviewProvider.files
                (Preview_element
                   (foldl (store_direct Sample.chain) empty_result [])) !! js "/x") ∨
     (∃ element events,
        Preview Sample.chain Sample.in_order
          (Sample.shown [js "icon"] "import '@/registry/new-york/ui/button'")
          Sample.tsconfig Sample.utils Sample.content 3
          (Props.mk (js "gantt") (js "export default null") None) =
        Fulfilled (element, events) ∧
        is_Some (PreviewProvider.files element !! js "/components/ui/icon.tsx") ∧
        ¬ is_Some (PreviewProvider.files element !! js "/components/ui/button.tsx"))).
Proof.
  destruct (Preview Sample.chain Sample.in_order
              (Sample.shown [js "icon"] "import '@/registry/new-york/ui/button'")
              Sample.tsconfig Sample.utils Sample.content 3
              (Props.mk (js "gantt") (js "export default null") None))
    as [[element events]| |] eqn:E; [|by vm_compute in E..].
  destruct (Preview_files_domain _ _ _ _ _ _ _ _ _ _ (js "/components/ui/icon.tsx")
              in_order_perm E) as (reg & Hreg & Hicon).
  destruct (Preview_files_domain _ _ _ _ _ _ _ _ _ _ (js "/components/ui/button.tsx")
              in_order_perm E) as (reg' & Hreg' & Hbutton).
  exists reg. split; [done|]. right. exists element, events. split; [done|].
  vm_compute in Hreg, Hreg'. simplify_eq. split.
  - apply Hicon. right. right. exists (js "icon"). eexists.
    split_and!; [right; by_compute | vm_compute; reflexivity | by vm_compute].
  - rewrite Hbutton. intros [H|[H|(c & mod_ & [Hc|Hc] & Hmod & Hpath)]].
    + revert H. by_compute.
    + by vm_compute in H.
    + revert Hc. by_compute.
    + cbn in Hc. apply list_elem_of_singleton in Hc as ->.
      vm_compute in Hmod. by simplify_eq.
Defined.

Lemma Preview_returns_iff_witness :
  (∃ fuel element,
     Preview Sample.cycle Sample.in_order (Sample.shown [] "export const Gantt = null")
       Sample.tsconfig Sample.utils Sample.content fuel
       (Props.mk (js "gantt") Sample.cycle_entry None) = Fulfilled element) ↔
  ∃ reg,
    Sample.shown [] "export const Gantt = null" (js "gantt") = Some reg ∧
    finite_depth Sample.cycle Sample.cycle_entry ∧
    finite_depth Sample.cycle (first_content (Registry.files reg)) ∧
    ∀ d, d ∈ Object_values (default [] (Registry.registryDependencies reg)) →
         ∃ mod_, Sample.cycle d = Some mod_ ∧
                 finite_depth Sample.cycle (first_content (Component.files mod_)).
Proof.
  exact (Preview_returns_iff Sample.cycle Sample.in_order
           (Sample.shown [] "export const Gantt = null")
           Sample.tsconfig Sample.utils Sample.content
           (Props.mk (js "gantt") Sample.cycle_entry None) in_order_perm).
Defined.

Lemma Preview_rejected_iff_witness :
  ∃ fuel,
    Preview Sample.chain Sample.in_order
      (Sample.shown [js "missing"] "export const Gantt = null")
      Sample.tsconfig Sample.utils Sample.content fuel
      (Props.mk (js "gantt") Sample.chain_entry None) = Rejected.
Proof.
  apply (Preview_rejected_iff Sample.chain Sample.in_order
           (Sample.shown [js "missing"] "export const Gantt = null")
           Sample.tsconfig Sample.utils Sample.content
           (Props.mk (js "gantt") Sample.chain_entry None) in_order_perm).
  right. eexists _, (js "missing").
  split_and!; [vm_compute; reflexivity | | by_compute | by vm_compute].
  apply (fulfilled_finite_depth Sample.chain Sample.in_order 3 _
           (foldl (store_direct Sample.chain) empty_result [js "button"],
            [Import (js "button"); Import (js "icon")]));
    [apply in_order_perm | by vm_compute].
Defined.

Lemma Preview_fixed_files_witness :
  ∃ reg,
    Sample.shown [js "button"] "import '@/registry/new-york/ui/button'" (js "gantt") =
      Some reg ∧
    ∃ element events,
      Preview Sample.chain Sample.in_order
        (Sample.shown [js "button"] "import '@/registry/new-york/ui/button'")
        Sample.tsconfig Sample.utils Sample.content 3
        (Props.mk (js "gantt") Sample.chain_entry None) = Fulfilled (element, events) ∧
      PreviewProvider.files element !! js "/components/ui/kibo-ui/gantt.tsx" =
        Some (js "import '@/components/ui/button'").
Proof.
  destruct (Preview Sample.chain Sample.in_order
              (Sample.shown [js "button"] "import '@/registry/new-york/ui/button'")
              Sample.tsconfig Sample.utils Sample.content 3
              (Props.mk (js "gantt") Sample.chain_entry None))
    as [[element events]| |] eqn:E; [|by vm_compute in E..].
  destruct (Preview_fixed_files _ _ _ _ _ _ _ _ _ _ E)
    as (reg & Hreg & _ & _ & _ & _ & Hshown).
  exists reg. split; [done|]. exists element, events. split; [done|].
  vm_compute in Hreg. simplify_eq. exact Hshown.
Defined.

Lemma caller_dependencies_runtime_only_witness :
  ∃ r events,
    Preview_store Sample.chain Sample.in_order (Sample.shown [] "export const Gantt = null")
      Sample.tsconfig Sample.utils Sample.content 3
      (Props.mk (js "gantt") Sample.chain_entry (Some (Sample.array [js "zod@3"]))) =
    Fulfilled (r, events) ∧
    Result.devDependencies r !! js "zod" = None ∧
    Result.dependencies r !! js "zod" = Some (js "3").
Proof.
  destruct (Preview_store Sample.chain Sample.in_order
              (Sample.shown [] "export const Gantt = null")
              Sample.tsconfig Sample.utils Sample.content 3
              (Props.mk (js "gantt") Sample.chain_entry None))
    as [[r events]| |] eqn:E; [|by vm_compute in E..].
  do 2 eexists. split.
  - apply (caller_dependencies_runtime_only _ _ _ _ _ _ _ _ _
             (Some (Sample.array [js "zod@3"])) _ _ E).
  - vm_compute in E. simplify_eq. by vm_compute.
Defined.

Lemma missing_components_skipped_witness :
  ∃ r events,
    parseShadcnComponents Sample.chain Sample.in_order 3
      (js "import '@/components/ui/missing'; import '@/components/ui/icon'") =
    Fulfilled (r, events) ∧
    Warn (js "missing") ∈ events ∧
    r = foldl (store_direct Sample.chain) empty_result [js "icon"].
Proof.
  destruct (parseShadcnComponents Sample.chain Sample.in_order 3
              (js "import '@/components/ui/missing'; import '@/components/ui/icon'"))
    as [[r events]| |] eqn:E; [|by vm_compute in E..].
  exists r, events. split; [done|].
  destruct (missing_components_skipped Sample.chain Sample.in_order 3
              (js "import '@/components/ui/missing'; import '@/components/ui/icon'")
              in_order_perm) as [_ H].
  destruct (H r events E) as [Hwarn ->]. split.
  - apply (Hwarn (js "missing")); [by_compute | by vm_compute].
  - by vm_compute.
Defined.

Lemma dependencies_of_direct_components_witness :
  ∃ c mod_ entries d,
    c ∈ components Sample.chain_entry ∧ Sample.chain c = Some mod_ ∧
    Component.dependencies mod_ = Some entries ∧ d ∈ Object_values entries ∧
    dependency_key d = js "@radix-ui/react-slot" ∧ dependency_version d = js "latest".
Proof.
  destruct (parseShadcnComponents Sample.chain Sample.in_order 3 Sample.chain_entry)
    as [[r events]| |] eqn:E; [|by vm_compute in E..].
  apply (dependencies_of_direct_components Sample.chain Sample.in_order 3
           Sample.chain_entry r events _ _ in_order_perm E).
  vm_compute in E. simplify_eq. by vm_compute.
Defined.
